(** * PyEveLiveDPS: the log reader (logreader.py)

    A shallow embedding of [BaseLogReader], [LogReader],
    [PlaybackLogReader] and [CharacterDetector], and the properties of
    the event extractor, the session readers and the character registry.

    Text is a list of characters.  Python exceptions are values of
    [exn]; a computation that can raise returns a [Result].  Message
    boxes and the animator are user-interface effects with no influence
    on the values computed here and are left out. *)

From Stdlib Require Import Ascii String ZArith Lia Bool Arith List.
Import ListNotations.


(* ================================================================== *)
(** ** Text *)

Definition text := list ascii.

Definition T (s : string) : text := list_ascii_of_string s.

Definition nl : ascii := "010"%char.

Definition text_eqb (a b : text) : bool :=
  if list_eq_dec ascii_dec a b then true else false.

(* ================================================================== *)
(** ** Exceptions *)

Inductive exn : Type :=
| BadLogException (msg : string)
| AttributeError
| IndexError
| ValueError
| FileNotFoundError.

Inductive Result (A : Type) : Type :=
| Ok (a : A)
| Raise (e : exn).

Arguments Ok {A} a.
Arguments Raise {A} e.

Definition bind {A B : Type} (r : Result A) (k : A -> Result B) : Result B :=
  match r with
  | Ok a => k a
  | Raise e => Raise e
  end.

Notation "x <- r ;; k" := (bind r (fun x => k))
  (at level 61, r at next level, right associativity).

(* ================================================================== *)
(** ** The regular expressions of [BaseLogReader]

    Every pattern of the class is a sequence of literal characters,
    [.*], [.*?] and one group [([0-9]+)].  [match_here] is the
    backtracking matcher of Python's [re] on such sequences: it tries
    the alternatives in the order of priority of the engine (a greedy
    repetition longest first, a lazy one shortest first) and answers
    with the first that lets the rest of the pattern match. *)

Inductive cls : Type :=
| Dot      (* [.], every character but the newline *)
| Digit.   (* [[0-9]] *)

Definition is_digit (c : ascii) : bool :=
  let n := nat_of_ascii c in (Nat.leb 48 n && Nat.leb n 57)%bool.

Definition cls_match (k : cls) (c : ascii) : bool :=
  match k with
  | Dot => negb (Ascii.eqb c nl)
  | Digit => is_digit c
  end.

Inductive item : Type :=
| Lit (l : text)                    (* literal characters *)
| Star (k : cls) (greedy : bool)    (* [k*] and [k*?] *)
| GroupPlus (k : cls).              (* [(k+)], the capturing group *)

Definition regex := list item.

(** [strip_prefix l s] is what is left of [s] after the literal [l]. *)
Fixpoint strip_prefix (l s : text) : option text :=
  match l with
  | [] => Some s
  | a :: l' =>
      match s with
      | [] => None
      | c :: s' => if Ascii.eqb a c then strip_prefix l' s' else None
      end
  end.

(** A match is the text of the group and the number of characters the
    whole match spans. *)
Definition bump (k : nat) (r : option (text * nat)) : option (text * nat) :=
  match r with
  | Some (g, n) => Some (g, k + n)
  | None => None
  end.

(** The three repetitions, each over the matcher [cont] of the rest of
    the pattern. *)
Fixpoint greedy_loop (k : cls) (cont : text -> option (text * nat))
  (s : text) : option (text * nat) :=
  match s with
  | c :: s' =>
      if cls_match k c then
        match greedy_loop k cont s' with
        | Some r => bump 1 (Some r)
        | None => cont s
        end
      else cont s
  | [] => cont s
  end.

Fixpoint lazy_loop (k : cls) (cont : text -> option (text * nat))
  (s : text) : option (text * nat) :=
  match cont s with
  | Some r => Some r
  | None =>
      match s with
      | c :: s' => if cls_match k c then bump 1 (lazy_loop k cont s') else None
      | [] => None
      end
  end.

Fixpoint plus_loop (k : cls) (cont : text -> text -> option (text * nat))
  (acc : text) (s : text) : option (text * nat) :=
  match s with
  | c :: s' =>
      if cls_match k c then
        match plus_loop k cont (acc ++ [c]) s' with
        | Some r => bump 1 (Some r)
        | None => bump 1 (cont (acc ++ [c]) s')
        end
      else None
  | [] => None
  end.

(** [match_here p cap s]: the pattern [p] matched at the start of [s],
    [cap] being the text of the group so far. *)
Fixpoint match_here (p : regex) (cap : text) (s : text) {struct p}
  : option (text * nat) :=
  match p with
  | [] => Some (cap, 0)
  | Lit l :: p' =>
      match strip_prefix l s with
      | Some s' => bump (length l) (match_here p' cap s')
      | None => None
      end
  | Star k true :: p' => greedy_loop k (match_here p' cap) s
  | Star k false :: p' => lazy_loop k (match_here p' cap) s
  | GroupPlus k :: p' => plus_loop k (match_here p') [] s
  end.

(** [regex.findall(logData)] for a pattern with one group: the string
    is scanned from left to right; at a position where the pattern
    matches, the text of the group is recorded and the scan resumes at
    the end of the match; elsewhere it moves on by one character.
    [skip] counts the characters of the current match still to pass.
    No pattern of the class has an empty match ([match_here_nonempty]),
    the one case in which [findall] does more: it would also try the
    position at the end of the string. *)
Fixpoint scan (p : regex) (skip : nat) (s : text) : list text :=
  match s with
  | [] => []
  | _ :: s' =>
      match skip with
      | S k => scan p k s'
      | O =>
          match match_here p [] s with
          | Some (g, n) => g :: scan p (Nat.pred n) s'
          | None => scan p 0 s'
          end
      end
  end.

Definition findall (p : regex) (s : text) : list text := scan p 0 s.

Module Patterns.

Definition combat : item := Lit (T "(combat) <").
Definition lazy_any : item := Star Dot false.
Definition any : item := Star Dot true.
Definition number : item := GroupPlus Digit.

(** ["\(combat\) <.*?><b>([0-9]+).*" ++ tail] *)
Definition plain (tail : string) : regex :=
  [combat; lazy_any; Lit (T "><b>"); number; any; Lit (T tail)].

(** ["\(combat\) <.*?" ++ colour ++ "><b>([0-9]+).*" ++ tail] *)
Definition coloured (colour tail : string) : regex :=
  [combat; lazy_any; Lit (T colour); Lit (T "><b>"); number; any;
   Lit (T tail)].

(** ["\(combat\) <.*?><b>" ++ sign ++ "([0-9]+).*" ++ tail] *)
Definition signed (sign tail : string) : regex :=
  [combat; lazy_any; Lit (T "><b>"); Lit (T sign); number; any;
   Lit (T tail)].

End Patterns.

Definition damageOutRegex := Patterns.plain ">to<".
Definition damageInRegex := Patterns.plain ">from<".
Definition armorRepairedOutRegex := Patterns.plain "> remote armor repaired to <".
Definition hullRepairedOutRegex := Patterns.plain "> remote hull repaired to <".
Definition shieldBoostedOutRegex := Patterns.plain "> remote shield boosted to <".
Definition armorRepairedInRegex := Patterns.plain "> remote armor repaired by <".
Definition hullRepairedInRegex := Patterns.plain "> remote hull repaired by <".
Definition shieldBoostedInRegex := Patterns.plain "> remote shield boosted by <".
Definition capTransferedOutRegex := Patterns.plain "> remote capacitor transmitted to <".
Definition capNeutralizedOutRegex := Patterns.coloured "ff7fffff" "> energy neutralized <".
Definition nosRecievedRegex := Patterns.signed "+" "> energy drained from <".
Definition capTransferedInRegex := Patterns.plain "> remote capacitor transmitted by <".
Definition capNeutralizedInRegex := Patterns.coloured "ffe57f7f" "> energy neutralized <".
Definition nosTakenRegex := Patterns.signed "-" "> energy drained to <".

(** The fourteen patterns [BaseLogReader.__init__] compiles. *)
Definition all_regexes : list regex :=
  [damageOutRegex; damageInRegex;
   armorRepairedOutRegex; hullRepairedOutRegex; shieldBoostedOutRegex;
   armorRepairedInRegex; hullRepairedInRegex; shieldBoostedInRegex;
   capTransferedOutRegex; capNeutralizedOutRegex; nosRecievedRegex;
   capTransferedInRegex; capNeutralizedInRegex; nosTakenRegex].

(* ================================================================== *)
(** ** [extractValues] and [BaseLogReader.readLog] *)

Local Open Scope Z_scope.

Definition digit_value (c : ascii) : Z := Z.of_nat (nat_of_ascii c) - 48.

(** [int(match)] on the strings the group can hold.  Python raises
    [ValueError] on the empty string and on a string with a character
    that is no part of a number; the signs, blanks and underscores it
    also accepts never occur in a run of [[0-9]].  The limit that
    recent interpreters put on the length of the string (4300 digits)
    is not modelled: on a longer run Python raises [ValueError] where
    [int_] answers with the number. *)
Fixpoint int_loop (acc : Z) (s : text) : Result Z :=
  match s with
  | [] => Ok acc
  | c :: s' =>
      if is_digit c then int_loop (10 * acc + digit_value c) s'
      else Raise ValueError
  end.

Definition int_ (s : text) : Result Z :=
  match s with
  | [] => Raise ValueError
  | _ => int_loop 0 s
  end.

(** [for match in group: returnValue += int(match)] *)
Fixpoint sum_matches (returnValue : Z) (group : list text) : Result Z :=
  match group with
  | [] => Ok returnValue
  | m :: group' =>
      v <- int_ m ;;
      sum_matches (returnValue + v) group'
  end.

Definition extractValues (regex : regex) (logData : text) : Result Z :=
  let returnValue := 0 in
  let group := findall regex logData in
  match group with
  | [] => Ok returnValue
  | _ => sum_matches returnValue group
  end.

(** The tuple [readLog] returns: [damageOut, damageIn, logisticsOut,
    logisticsIn, capTransfered, capRecieved, capDamageDone,
    capDamageRecieved]. *)
Definition totals : Type := (Z * Z * Z * Z * Z * Z * Z * Z)%type.

Definition zero_totals : totals := (0, 0, 0, 0, 0, 0, 0, 0).

Definition totals_add (x y : totals) : totals :=
  let '(a1, a2, a3, a4, a5, a6, a7, a8) := x in
  let '(b1, b2, b3, b4, b5, b6, b7, b8) := y in
  (a1 + b1, a2 + b2, a3 + b3, a4 + b4, a5 + b5, a6 + b6, a7 + b7, a8 + b8).

Definition capRecieved_of (t : totals) : Z :=
  let '(_, _, _, _, _, x, _, _) := t in x.

Definition capDamageDone_of (t : totals) : Z :=
  let '(_, _, _, _, _, _, x, _) := t in x.

Definition BaseLogReader_readLog (logData : text) : Result totals :=
  damageOut <- extractValues damageOutRegex logData ;;
  damageIn <- extractValues damageInRegex logData ;;
  logisticsOut <- extractValues armorRepairedOutRegex logData ;;
  v <- extractValues hullRepairedOutRegex logData ;;
  let logisticsOut := logisticsOut + v in
  v <- extractValues shieldBoostedOutRegex logData ;;
  let logisticsOut := logisticsOut + v in
  logisticsIn <- extractValues armorRepairedInRegex logData ;;
  v <- extractValues hullRepairedInRegex logData ;;
  let logisticsIn := logisticsIn + v in
  v <- extractValues shieldBoostedInRegex logData ;;
  let logisticsIn := logisticsIn + v in
  capTransfered <- extractValues capTransferedOutRegex logData ;;
  capRecieved <- extractValues capTransferedInRegex logData ;;
  v <- extractValues nosRecievedRegex logData ;;
  let capRecieved := capRecieved + v in
  capDamageDone <- extractValues capNeutralizedOutRegex logData ;;
  v <- extractValues nosRecievedRegex logData ;;
  let capDamageDone := capDamageDone + v in
  capDamageRecieved <- extractValues capNeutralizedInRegex logData ;;
  v <- extractValues nosTakenRegex logData ;;
  let capDamageRecieved := capDamageRecieved + v in
  Ok (damageOut, damageIn, logisticsOut, logisticsIn, capTransfered,
      capRecieved, capDamageDone, capDamageRecieved).

Local Close Scope Z_scope.

(* ================================================================== *)
(** ** Files

    The log directory is shared with the game client, which appends to
    the files.  A file system maps a path to the text of the file; an
    open file is the path and the cursor, the number of characters read
    so far.  The text is what a handle opened in text mode delivers:
    decoded and with its newlines translated.  A file whose bytes are
    no UTF-8 has no text and is outside the model: reading it raises
    [UnicodeDecodeError], which [read] and [readline] do not
    express. *)

Definition path := string.

Definition filesystem := path -> option text.

Definition contents (fs : filesystem) (p : path) : text :=
  match fs p with
  | Some c => c
  | None => []
  end.

Record TextIO : Type := { name : path; pos : nat }.

(** [open(logPath, 'r', encoding="utf8")] *)
Definition open_ (fs : filesystem) (logPath : path) : Result TextIO :=
  match fs logPath with
  | Some _ => Ok {| name := logPath; pos := 0 |}
  | None => Raise FileNotFoundError
  end.

Definition remaining (fs : filesystem) (f : TextIO) : text :=
  skipn (pos f) (contents fs (name f)).

(** The first line of [s], its newline included; all of [s] when it has
    no newline. *)
Fixpoint take_line (s : text) : text :=
  match s with
  | [] => []
  | c :: s' => if Ascii.eqb c nl then [c] else c :: take_line s'
  end.

(** The text after the first [k] lines of [s], and line [k] of [s],
    counted from 0. *)
Fixpoint drop_lines (k : nat) (s : text) : text :=
  match k with
  | O => s
  | S k' => let r := drop_lines k' s in skipn (length (take_line r)) r
  end.

Definition line (k : nat) (s : text) : text := take_line (drop_lines k s).

Definition advance (f : TextIO) (t : text) : TextIO :=
  {| name := name f; pos := pos f + length t |}.

Definition readline (fs : filesystem) (f : TextIO) : text * TextIO :=
  let line := take_line (remaining fs f) in (line, advance f line).

Definition read (fs : filesystem) (f : TextIO) : text * TextIO :=
  let data := remaining fs f in (data, advance f data).

(** [re.search("(?<=" ++ key ++ ").*", line)]: the search stops at the
    first position that [key] precedes, and [.*] runs from there to the
    end of the line. *)
Fixpoint until_nl (s : text) : text :=
  match s with
  | [] => []
  | c :: s' => if Ascii.eqb c nl then [] else c :: until_nl s'
  end.

Fixpoint search_after (key : text) (s : text) : option text :=
  match strip_prefix key s with
  | Some r => Some (until_nl r)
  | None =>
      match s with
      | [] => None
      | _ :: s' => search_after key s'
      end
  end.

(** [m.group(0)] on the result of [re.search], which is [None] when
    nothing matched. *)
Definition group0 (m : option text) : Result text :=
  match m with
  | Some g => Ok g
  | None => Raise AttributeError
  end.

Definition Listener : text := T "Listener: ".

Definition separator : text :=
  T "------------------------------------------------------------" ++ [nl].

(* ================================================================== *)
(** ** [LogReader] *)

Record LogReader : Type := { log : TextIO; logLine : text }.

Definition LogReader_init (fs : filesystem) (logPath : path)
  : Result LogReader :=
  f <- open_ fs logPath ;;
  let '(_, f) := readline fs f in
  let '(_, f) := readline fs f in
  let '(characterLine, f) := readline fs f in
  match search_after Listener characterLine with
  | None => Raise (BadLogException "not character log")
  | Some character =>
      let '(_, f) := readline fs f in
      let '(_, f) := readline fs f in
      let '(logLine, f) := readline fs f in
      if text_eqb logLine separator then
        let '(_, f) := readline fs f in
        let '(line, f) := readline fs f in
        collisionCharacter <- group0 (search_after Listener line) ;;
        Raise (BadLogException "log file collision")
      else
        let '(_, f) := read fs f in
        Ok {| log := f; logLine := logLine |}
  end.

Definition LogReader_readLog (fs : filesystem) (self : LogReader)
  : Result totals * LogReader :=
  let '(logData, f) := read fs (log self) in
  (BaseLogReader_readLog logData, {| log := f; logLine := logLine self |}).

Definition catchup (fs : filesystem) (self : LogReader) : LogReader :=
  let '(_, f) := read fs (log self) in
  {| log := f; logLine := logLine self |}.

(* ================================================================== *)
(** ** [PlaybackLogReader] *)

Record PlaybackLogReader : Type := {
  pb_log : TextIO;
  startTimeLog : Z;
  pb_logLine : text;
  nextLine : text;
  nextTime : Z;
  startTimeLive : Z;
  startTimeDelta : Z
}.

(** [timeRegex], the pattern "^\[ .*? \]". *)
Definition timeRegex : regex := [Lit (T "[ "); Star Dot false; Lit (T " ]")].

(** [findall] for a pattern that starts with [^] and has no group:
    without the MULTILINE flag the pattern matches at the start of the
    string only, and the list holds the text of that match. *)
Definition findall_anchored (p : regex) (s : text) : list text :=
  match match_here p [] s with
  | Some (_, n) => [firstn n s]
  | None => []
  end.

(** [l.group(0)] on a list: a list has no attribute [group]. *)
Definition list_group0 (l : list text) : Result text := Raise AttributeError.

(** The attributes of an instance that hold a time, as [__init__]
    assigns them; any other name raises. *)
Definition time_attr (self : PlaybackLogReader) (attr : string) : Result Z :=
  if String.eqb attr "startTimeLog" then Ok (startTimeLog self)
  else if String.eqb attr "nextTime" then Ok (nextTime self)
  else if String.eqb attr "startTimeLive" then Ok (startTimeLive self)
  else if String.eqb attr "startTimeDelta" then Ok (startTimeDelta self)
  else Raise AttributeError.

Section Playback.

(** [datetime.datetime.strptime(s, format)] in seconds; [None] is its
    [ValueError].  [now] is [datetime.datetime.utcnow()]. *)
Variable strptime : text -> string -> option Z.

Definition strptime_ (s : text) (format : string) : Result Z :=
  match strptime s format with
  | Some t => Ok t
  | None => Raise ValueError
  end.

Definition PlaybackLogReader_init (now : Z) (fs : filesystem)
  (logPath : path) : Result PlaybackLogReader :=
  match open_ fs logPath with
  | Raise _ => Raise (BadLogException "not character log")
  | Ok f =>
      let '(_, f) := readline fs f in
      let '(_, f) := readline fs f in
      let '(characterLine, f) := readline fs f in
      match search_after Listener characterLine with
      | Some character =>
          let '(line, f) := readline fs f in
          started <- group0 (search_after (T "Session Started: ") line) ;;
          startTimeLog <- strptime_ started "%Y.%m.%d %X" ;;
          let '(_, f) := readline fs f in
          let '(logLine, f) := readline fs f in
          f <- (if text_eqb logLine separator then
                  let '(_, f) := readline fs f in
                  let '(line, f) := readline fs f in
                  collisionCharacter <-
                    group0 (search_after Listener line) ;;
                  let '(_, f) := readline fs f in
                  let '(_, f) := readline fs f in
                  Ok f
                else Ok f) ;;
          let '(nextLine, f) := readline fs f in
          stamp <- list_group0 (findall_anchored timeRegex nextLine) ;;
          nextTime <- strptime_ stamp "[ %Y.%m.%d %X ]" ;;
          let startTimeLive := now in
          Ok {| pb_log := f;
                startTimeLog := startTimeLog;
                pb_logLine := logLine;
                nextLine := nextLine;
                nextTime := nextTime;
                startTimeLive := startTimeLive;
                startTimeDelta := (startTimeLive - startTimeLog)%Z |}
      | None => Raise (BadLogException "not character log")
      end
  end.

(** [readLog] starts with the test of its loop, which reads
    [self.nextEntry]; no statement of the class assigns that name, so
    the evaluation ends there. *)
Definition PlaybackLogReader_readLog (self : PlaybackLogReader)
  : Result totals :=
  nextEntry <- time_attr self "nextEntry" ;;
  Raise AttributeError.

End Playback.

(* ================================================================== *)
(** ** [CharacterDetector] *)

Record CharacterDetector : Type := {
  menuEntries : list text;
  logReaders : list LogReader;
  selectedIndex : Z;
  playbackLogReader : option PlaybackLogReader;
  (** the radio buttons of [characterMenu.menu]: label and value *)
  characterMenu : list (text * Z)
}.

Definition set_logReaders (self : CharacterDetector) (l : list LogReader)
  : CharacterDetector :=
  {| menuEntries := menuEntries self;
     logReaders := l;
     selectedIndex := selectedIndex self;
     playbackLogReader := playbackLogReader self;
     characterMenu := characterMenu self |}.

Definition set_playbackLogReader (self : CharacterDetector)
  (r : option PlaybackLogReader) : CharacterDetector :=
  {| menuEntries := menuEntries self;
     logReaders := logReaders self;
     selectedIndex := selectedIndex self;
     playbackLogReader := r;
     characterMenu := characterMenu self |}.

Definition set_selectedIndex (self : CharacterDetector) (i : Z)
  : CharacterDetector :=
  {| menuEntries := menuEntries self;
     logReaders := logReaders self;
     selectedIndex := i;
     playbackLogReader := playbackLogReader self;
     characterMenu := characterMenu self |}.

(** The position a Python list gives to the index [i]: a negative index
    counts from the end, and an index outside the list raises. *)
Definition py_index (len : nat) (i : Z) : Result nat :=
  let n := Z.of_nat len in
  if ((0 <=? i) && (i <? n))%Z then Ok (Z.to_nat i)
  else if ((- n <=? i) && (i <? 0))%Z then Ok (Z.to_nat (n + i))
  else Raise IndexError.

Definition getitem {A : Type} (l : list A) (j : nat) : Result A :=
  match nth_error l j with
  | Some a => Ok a
  | None => Raise IndexError
  end.

(** [l] with [v] at position [j]. *)
Fixpoint store {A : Type} (l : list A) (j : nat) (v : A) : list A :=
  match l, j with
  | [], _ => []
  | _ :: l', O => v :: l'
  | a :: l', S j' => a :: store l' j' v
  end.

(** [l[j] = v] *)
Definition setitem {A : Type} (l : list A) (j : nat) (v : A)
  : Result (list A) :=
  if j <? length l then Ok (store l j v) else Raise IndexError.

(** The loop of [addLog] over [range(len(self.menuEntries))]: the first
    position from [i] on whose entry is [character]. *)
Fixpoint find_entry (character : text) (entries : list text) (i : nat)
  : option nat :=
  match entries with
  | [] => None
  | e :: entries' =>
      if text_eqb character e then Some i
      else find_entry character entries' (S i)
  end.

Definition addLog (self : CharacterDetector) (fs : filesystem)
  (logPath : path) : Result unit * CharacterDetector :=
  match open_ fs logPath with
  | Raise e => (Raise e, self)
  | Ok f =>
      let '(_, f) := readline fs f in
      let '(_, f) := readline fs f in
      let '(characterLine, f) := readline fs f in
      match search_after Listener characterLine with
      | None => (Ok tt, self)
      | Some character =>
          match find_entry character (menuEntries self) 0 with
          | Some i =>
              match LogReader_init fs logPath with
              | Raise (BadLogException _) => (Ok tt, self)
              | Raise e => (Raise e, self)
              | Ok newLogReader =>
                  match setitem (logReaders self) i newLogReader with
                  | Ok l => (Ok tt, set_logReaders self l)
                  | Raise e => (Raise e, self)
                  end
              end
          | None =>
              match LogReader_init fs logPath with
              | Raise (BadLogException _) => (Ok tt, self)
              | Raise e => (Raise e, self)
              | Ok newLogReader =>
                  (Ok tt,
                   {| menuEntries := menuEntries self ++ [character];
                      logReaders := logReaders self ++ [newLogReader];
                      selectedIndex := selectedIndex self;
                      playbackLogReader := playbackLogReader self;
                      characterMenu :=
                        characterMenu self ++
                        [(character, Z.of_nat (length (menuEntries self)))]
                   |})
              end
          end
      end
  end.

Definition on_created := addLog.

(** [playbackLog], on the outcome [made] of [PlaybackLogReader(logPath)]. *)
Definition playbackLog_on (made : Result PlaybackLogReader)
  (self : CharacterDetector) : Result unit * CharacterDetector :=
  match made with
  | Ok r =>
      let self := set_playbackLogReader self (Some r) in
      (Ok tt, set_playbackLogReader self None)
  | Raise (BadLogException _) => (Ok tt, set_playbackLogReader self None)
  | Raise e => (Raise e, self)
  end.

Definition playbackLog (strptime : text -> string -> option Z) (now : Z)
  (self : CharacterDetector) (fs : filesystem) (logPath : path)
  : Result unit * CharacterDetector :=
  playbackLog_on (PlaybackLogReader_init strptime now fs logPath) self.

(** The branches of [readLog] for a detector without a playback
    reader. *)
Definition readLog_live (self : CharacterDetector) (fs : filesystem)
  : Result totals * CharacterDetector :=
  if 0 <? length (menuEntries self) then
    match py_index (length (logReaders self)) (selectedIndex self) with
    | Raise e => (Raise e, self)
    | Ok j =>
        match getitem (logReaders self) j with
        | Raise e => (Raise e, self)
        | Ok r =>
            let '(res, r) := LogReader_readLog fs r in
            (res, set_logReaders self (store (logReaders self) j r))
        end
    end
  else (Ok zero_totals, self).

Definition readLog (self : CharacterDetector) (fs : filesystem)
  : Result totals * CharacterDetector :=
  match playbackLogReader self with
  | Some r => (PlaybackLogReader_readLog r, self)
  | None => readLog_live self fs
  end.

Definition catchupLog (self : CharacterDetector) (fs : filesystem)
  : Result unit * CharacterDetector :=
  match py_index (length (logReaders self)) (selectedIndex self) with
  | Raise IndexError => (Ok tt, self)
  | Raise e => (Raise e, self)
  | Ok j =>
      match getitem (logReaders self) j with
      | Raise IndexError => (Ok tt, self)
      | Raise e => (Raise e, self)
      | Ok r =>
          (Ok tt, set_logReaders self (store (logReaders self) j (catchup fs r)))
      end
  end.

(** A click on the radio button of value [v]: the button writes [v] to
    its variable, [selectedIndex], and runs its command, [catchupLog]. *)
Definition select (self : CharacterDetector) (fs : filesystem) (v : Z)
  : Result unit * CharacterDetector :=
  catchupLog (set_selectedIndex self v) fs.

(** The fields as [__init__] sets them before it scans the directory. *)
Definition fresh : CharacterDetector :=
  {| menuEntries := [];
     logReaders := [];
     selectedIndex := 0%Z;
     playbackLogReader := None;
     characterMenu := [] |}.

(** The loop of [__init__] over the files of the last day, oldest
    first. *)
Fixpoint scan_logs (self : CharacterDetector) (fs : filesystem)
  (files : list path) : Result unit * CharacterDetector :=
  match files with
  | [] => (Ok tt, self)
  | filename :: files' =>
      match addLog self fs filename with
      | (Ok _, self) => scan_logs self fs files'
      | (Raise e, self) => (Raise e, self)
      end
  end.

(** [__init__]: [files] is the list the directory gives, already
    ordered by modification time and cut to the names that carry a time
    of the last day; [None] is a missing directory.  The constructor
    recovers from [FileNotFoundError] alone. *)
Definition CharacterDetector_init (fs : filesystem)
  (files : option (list path)) : Result CharacterDetector :=
  match files with
  | None => Ok fresh
  | Some files =>
      match scan_logs fresh fs files with
      | (Ok _, self) => Ok (set_selectedIndex self 0%Z)
      | (Raise FileNotFoundError, self) => Ok self
      | (Raise e, _) => Raise e
      end
  end.

(** The states of a detector: what the constructor returns, and what
    the methods and the menu make of it, whatever the files hold at
    each call. *)
Inductive reachable (strptime : text -> string -> option Z)
  : CharacterDetector -> Prop :=
| reach_init fs files self :
    CharacterDetector_init fs files = Ok self ->
    reachable strptime self
| reach_addLog self fs logPath :
    reachable strptime self ->
    reachable strptime (snd (addLog self fs logPath))
| reach_playbackLog self now fs logPath :
    reachable strptime self ->
    reachable strptime (snd (playbackLog strptime now self fs logPath))
| reach_readLog self fs :
    reachable strptime self ->
    reachable strptime (snd (readLog self fs))
| reach_select self fs label v :
    reachable strptime self ->
    In (label, v) (characterMenu self) ->
    reachable strptime (snd (select self fs v)).

(* ================================================================== *)
(** ** File names

    [__init__] takes the time of a log from its name,
    [filename.strip(".txt")]: [str.strip(chars)] drops from both ends
    of the string the characters that are in [chars]. *)

Definition char_in (c : ascii) (chars : text) : bool :=
  existsb (Ascii.eqb c) chars.

Fixpoint lstrip (chars s : text) : text :=
  match s with
  | [] => []
  | c :: s' => if char_in c chars then lstrip chars s' else s
  end.

Definition rstrip (chars s : text) : text := rev (lstrip chars (rev s)).

Definition strip (chars s : text) : text := rstrip chars (lstrip chars s).

(** [timeString = filename.strip(".txt")] *)
Definition timeString (filename : text) : text := strip (T ".txt") filename.

(* ================================================================== *)
(** ** Sample log text *)

Module Sample.

Definition header (character : string) : text :=
  separator ++
  T "  Gamelog" ++ [nl] ++
  T "  Listener: " ++ T character ++ [nl] ++
  T "  Session Started: 2017.03.05 12:00:00" ++ [nl] ++
  separator.

(** A hit of 125 on a target. *)
Definition hit : text :=
  T "[ 2017.03.05 12:00:05 ] (combat) <color=0xff00ffff><b>125</b> <color=0x77ffffff><font size=10>to</font> <b><color=0xffffffff>Guristas Scout</b><font size=10><color=0x77ffffff> - Light Missile - Hits"
  ++ [nl].

(** A hit of 40 by an attacker. *)
Definition incoming : text :=
  T "[ 2017.03.05 12:00:06 ] (combat) <color=0xffcc0000><b>40</b> <color=0x77ffffff><font size=10>from</font> <b><color=0xffffffff>Guristas Scout</b><font size=10><color=0x77ffffff> - Scourge Light Missile - Hits"
  ++ [nl].

(** A nosferatu line: [v] GJ drained from the target. *)
Definition drained (v : string) : text :=
  T "[ 2017.03.05 12:00:07 ] (combat) <color=0xff7fffff><b>+" ++ T v ++
  T " GJ</b><color=0x77ffffff><font size=10> energy drained from </font><b><color=0xffffffff>Guristas Scout</b>"
  ++ [nl].

(** The hit, read in two blocks with the cut inside the number. *)
Definition hit_head : text :=
  T "[ 2017.03.05 12:00:05 ] (combat) <color=0xff00ffff><b>12".

Definition hit_tail : text :=
  T "5</b> <color=0x77ffffff><font size=10>to</font> <b><color=0xffffffff>Guristas Scout</b><font size=10><color=0x77ffffff> - Light Missile - Hits"
  ++ [nl].

Definition notify : text :=
  T "[ 2017.03.05 12:00:09 ] (notify) Ship is out of range" ++ [nl].

(** A log of one character. *)
Definition session : text := header "Alice" ++ hit.

(** Two characters that started in the same second. *)
Definition collision : text := header "Alice" ++ header "Bob" ++ hit.

Definition log_txt : path := "20170305_120000.txt"%string.

(** One line with two hits. *)
Definition two_hits : text :=
  T "(combat) <color=0xff00ffff><b>125</b> <font size=10>to</font> <b>Scout</b> (combat) <color=0xff00ffff><b>40</b> <font size=10>to</font> <b>Scout</b>".

(** A file whose sixth line is the separator and whose eighth line
    names no listener. *)
Definition torn : text :=
  header "Alice" ++ separator ++ T "  Gamelog" ++ [nl].

(** A file that holds [c] at [p] and nothing else. *)
Definition one_file (p : path) (c : text) : filesystem :=
  fun q => if String.eqb q p then Some c else None.

End Sample.

(* ================================================================== *)
(** ** Predicates of the statements *)

(** No item of a pattern takes a newline. *)
Definition nl_free_item (i : item) : bool :=
  match i with
  | Lit l => forallb (fun c => negb (Ascii.eqb c nl)) l
  | _ => true
  end.

Definition nl_free (p : regex) : bool := forallb nl_free_item p.

(** The text after [u] does not change what is matched in [u]: [u]
    holds a newline, or the text after it is empty or starts a line. *)
Definition closed_by (u x : text) : Prop := In nl u \/ hd nl x = nl.

(** A match of [cont] spans no more than the text it is given. *)
Definition within (cont : text -> option (text * nat)) : Prop :=
  forall s g n, cont s = Some (g, n) -> n <= length s.

(** A non-empty run of [[0-9]]. *)
Definition digits (g : text) : Prop := g <> [] /\ forallb is_digit g = true.

Definition is_group (i : item) : bool :=
  match i with
  | GroupPlus _ => true
  | _ => false
  end.

Definition digit_group (i : item) : bool :=
  match i with
  | GroupPlus Dot => false
  | _ => true
  end.

(** The pattern has a group, and every group is [([0-9]+)]. *)
Definition grouped (p : regex) : bool :=
  (existsb is_group p && forallb digit_group p)%bool.

(** [a] is empty or ends with a newline, or [b] is empty or starts
    with one. *)
Definition line_boundary (a b : text) : Prop :=
  last a nl = nl \/ hd nl b = nl.

(** The first match of the pattern in the text, [regex.search]. *)
Fixpoint search (p : regex) (s : text) : option text :=
  match match_here p [] s with
  | Some (g, _) => Some g
  | None =>
      match s with
      | [] => None
      | _ :: s' => search p s'
      end
  end.

(** The handle is on [p], [k] lines into the text. *)
Definition at_line (p : path) (c : text) (k : nat) (f : TextIO) : Prop :=
  name f = p /\ pos f <= length c /\ skipn (pos f) c = drop_lines k c.

(** No playback reader, one reader for each character name, and a
    selection and menu values that are positions of the registry (or
    0 while it is empty). *)
Definition consistent (self : CharacterDetector) : Prop :=
  playbackLogReader self = None /\
  length (logReaders self) = length (menuEntries self) /\
  (0 <= selectedIndex self)%Z /\
  (selectedIndex self < Z.max 1 (Z.of_nat (length (menuEntries self))))%Z /\
  Forall (fun lv => (0 <= snd lv < Z.of_nat (length (menuEntries self)))%Z)
    (characterMenu self).

(** Every component of the tuple is at least 0. *)
Definition totals_nonneg (t : totals) : Prop :=
  let '(a1, a2, a3, a4, a5, a6, a7, a8) := t in
  (0 <= a1 /\ 0 <= a2 /\ 0 <= a3 /\ 0 <= a4 /\
   0 <= a5 /\ 0 <= a6 /\ 0 <= a7 /\ 0 <= a8)%Z.

(** The literal [l] occurs somewhere in [s]. *)
Fixpoint occurs (l s : text) : bool :=
  match strip_prefix l s with
  | Some _ => true
  | None =>
      match s with
      | [] => false
      | _ :: s' => occurs l s'
      end
  end.

(** The marker every pattern of the class starts with. *)
Definition combat_marker : text := T "(combat) <".

(** The text made of the lines [ls], each closed by a newline. *)
Fixpoint unlines (ls : list text) : text :=
  match ls with
  | [] => []
  | l :: ls' => l ++ nl :: unlines ls'
  end.

Definition no_nl (l : text) : Prop := ~ In nl l.

Definition dashes : text :=
  T "------------------------------------------------------------".

(** The five lines that open the log of [character]. *)
Definition log_header (character started : text) : text :=
  unlines [dashes; T "  Gamelog"; T "  Listener: " ++ character;
           T "  Session Started: " ++ started; dashes].

(** The radio buttons of the names [names], numbered from [k]. *)
Fixpoint menu_of (names : list text) (k : nat) : list (text * Z) :=
  match names with
  | [] => []
  | n :: names' => (n, Z.of_nat k) :: menu_of names' (S k)
  end.

(** The pattern ends with [.*] and a non-empty literal. *)
Definition ends_greedy (p : regex) : bool :=
  match rev p with
  | Lit (_ :: _) :: Star Dot true :: _ => true
  | _ => false
  end.

(** The text of a collision file cut short: a listener on the third
    line, the separator as sixth line, no listener on the eighth. *)
Definition torn_collision (c : text) : Prop :=
  (exists character, search_after Listener (line 2 c) = Some character) /\
  line 5 c = separator /\
  search_after Listener (line 7 c) = None.

(** Each character is named once, and the radio button of a name
    carries the position of the name. *)
Definition registry_ok (self : CharacterDetector) : Prop :=
  NoDup (menuEntries self) /\
  characterMenu self = menu_of (menuEntries self) 0 /\
  length (logReaders self) = length (menuEntries self).

(* ================================================================== *)
(** * Properties of the extractor *)

(** ** A match stays on its line *)

Lemma cls_match_nl (k : cls) : cls_match k nl = false.
Proof. destruct k; reflexivity. Qed.

Lemma closed_by_tail c u x :
  Ascii.eqb c nl = false -> closed_by (c :: u) x -> closed_by u x.
Proof.
  intros Hc [[Heq | Hin] | Hx]; [ | left; exact Hin | right; exact Hx].
  subst c. rewrite Ascii.eqb_refl in Hc. discriminate.
Qed.

Lemma closed_by_cls k c u x :
  cls_match k c = true -> closed_by (c :: u) x -> closed_by u x.
Proof.
  intros Hk. apply closed_by_tail.
  destruct (Ascii.eqb c nl) eqn:E; [ | reflexivity ].
  apply Ascii.eqb_eq in E. subst c. rewrite cls_match_nl in Hk. discriminate.
Qed.

Lemma strip_prefix_local l :
  forallb (fun c => negb (Ascii.eqb c nl)) l = true ->
  forall u x, closed_by u x ->
    match strip_prefix l u with
    | Some r => strip_prefix l (u ++ x) = Some (r ++ x) /\ closed_by r x
    | None => strip_prefix l (u ++ x) = None
    end.
Proof.
  induction l as [| a l IH]; intros Hl u x Hc; simpl.
  - split; [reflexivity | exact Hc].
  - simpl in Hl. apply andb_true_iff in Hl. destruct Hl as [Ha Hl].
    apply negb_true_iff in Ha.
    destruct u as [| c u]; simpl.
    + destruct Hc as [[] | Hx]. destruct x as [| c x]; [reflexivity |].
      simpl in Hx. subst c. rewrite Ha. reflexivity.
    + destruct (Ascii.eqb a c) eqn:E; [ | reflexivity ].
      apply Ascii.eqb_eq in E. subst c.
      apply IH; [exact Hl | ]. apply closed_by_tail with a; assumption.
Qed.

Section Local.

Variable x : text.

Lemma greedy_loop_local k cont :
  (forall u, closed_by u x -> cont (u ++ x) = cont u) ->
  forall u, closed_by u x ->
    greedy_loop k cont (u ++ x) = greedy_loop k cont u.
Proof.
  intros Hcont. induction u as [| c u IH]; intros Hc.
  - destruct Hc as [[] | Hx]. simpl.
    destruct x as [| c x']; [reflexivity |].
    simpl in Hx. subst c. simpl. rewrite cls_match_nl.
    apply (Hcont []). right. reflexivity.
  - simpl. destruct (cls_match k c) eqn:E.
    + rewrite IH by (apply closed_by_cls with k c; assumption).
      destruct (greedy_loop k cont u); [reflexivity |].
      apply (Hcont (c :: u)); assumption.
    + apply (Hcont (c :: u)); assumption.
Qed.

Lemma lazy_loop_local k cont :
  (forall u, closed_by u x -> cont (u ++ x) = cont u) ->
  forall u, closed_by u x ->
    lazy_loop k cont (u ++ x) = lazy_loop k cont u.
Proof.
  intros Hcont. induction u as [| c u IH]; intros Hc.
  - pose proof (Hcont [] Hc) as H0. simpl in H0.
    destruct Hc as [[] | Hx].
    destruct x as [| c x']; [reflexivity |].
    simpl in Hx. subst c. simpl. simpl in H0. rewrite H0.
    rewrite cls_match_nl. destruct (cont []); reflexivity.
  - pose proof (Hcont (c :: u) Hc) as H0. simpl in H0.
    simpl. rewrite H0.
    destruct (cont (c :: u)); [reflexivity |].
    destruct (cls_match k c) eqn:E; [ | reflexivity ].
    rewrite IH by (apply closed_by_cls with k c; assumption).
    reflexivity.
Qed.

Lemma plus_loop_local k cont :
  (forall acc u, closed_by u x -> cont acc (u ++ x) = cont acc u) ->
  forall u acc, closed_by u x ->
    plus_loop k cont acc (u ++ x) = plus_loop k cont acc u.
Proof.
  intros Hcont. induction u as [| c u IH]; intros acc Hc.
  - destruct Hc as [[] | Hx].
    destruct x as [| c x']; [reflexivity |].
    simpl in Hx. subst c. simpl. rewrite cls_match_nl. reflexivity.
  - simpl. destruct (cls_match k c) eqn:E; [ | reflexivity ].
    assert (Hu : closed_by u x) by (apply closed_by_cls with k c; assumption).
    rewrite IH by exact Hu. rewrite Hcont by exact Hu. reflexivity.
Qed.

Lemma match_here_local p :
  nl_free p = true ->
  forall cap u, closed_by u x ->
    match_here p cap (u ++ x) = match_here p cap u.
Proof.
  induction p as [| i p IH]; intros Hp cap u Hc; [reflexivity |].
  simpl in Hp. apply andb_true_iff in Hp. destruct Hp as [Hi Hp].
  destruct i as [l | k [|] | k]; simpl.
  - pose proof (strip_prefix_local l Hi u x Hc) as H.
    destruct (strip_prefix l u) as [r |].
    + destruct H as [-> Hr]. rewrite IH by assumption. reflexivity.
    + rewrite H. reflexivity.
  - apply greedy_loop_local; [ | exact Hc]. intros; apply IH; assumption.
  - apply lazy_loop_local; [ | exact Hc]. intros; apply IH; assumption.
  - apply plus_loop_local; [ | exact Hc]. intros; apply IH; assumption.
Qed.

End Local.

(** ** A match spans no more than the text *)

Lemma strip_prefix_length l :
  forall s r, strip_prefix l s = Some r -> length s = length l + length r.
Proof.
  induction l as [| a l IH]; intros s r H; simpl in H.
  - injection H as <-. reflexivity.
  - destruct s as [| c s]; [discriminate |].
    destruct (Ascii.eqb a c); [ | discriminate ].
    simpl. rewrite (IH s r H). reflexivity.
Qed.

Lemma bump_some k r g n :
  bump k r = Some (g, n) -> exists m, r = Some (g, m) /\ n = k + m.
Proof.
  destruct r as [[g' m] |]; simpl; intros H; [ | discriminate ].
  injection H as <- <-. exists m. split; reflexivity.
Qed.

Lemma greedy_loop_within k cont : within cont -> within (greedy_loop k cont).
Proof.
  intros Hc s. induction s as [| c s IH]; intros g n H; simpl in H.
  - apply (Hc [] g n H).
  - destruct (cls_match k c); [ | apply (Hc _ g n H) ].
    destruct (greedy_loop k cont s) as [[g' m] |] eqn:E; [ | apply (Hc _ g n H) ].
    simpl in H. injection H as <- <-. specialize (IH g' m eq_refl).
    simpl. lia.
Qed.

Lemma lazy_loop_within k cont : within cont -> within (lazy_loop k cont).
Proof.
  intros Hc s. induction s as [| c s IH]; intros g n H; simpl in H.
  - destruct (cont []) as [r |] eqn:E; [ | discriminate ].
    injection H as ->. apply (Hc [] g n E).
  - destruct (cont (c :: s)) as [r |] eqn:E.
    + injection H as ->. apply (Hc _ g n E).
    + destruct (cls_match k c); [ | discriminate ].
      apply bump_some in H. destruct H as [m [H ->]].
      specialize (IH g m H). simpl. lia.
Qed.

Lemma plus_loop_within k cont :
  (forall acc, within (cont acc)) -> forall acc, within (plus_loop k cont acc).
Proof.
  intros Hc acc s. revert acc.
  induction s as [| c s IH]; intros acc g n H; simpl in H; [discriminate |].
  destruct (cls_match k c); [ | discriminate ].
  destruct (plus_loop k cont (acc ++ [c]) s) as [[g' m] |] eqn:E.
  - simpl in H. injection H as <- <-. specialize (IH _ g' m E). simpl. lia.
  - apply bump_some in H. destruct H as [m [H ->]].
    specialize (Hc _ s g m H). simpl. lia.
Qed.

Lemma match_here_within p : forall cap, within (match_here p cap).
Proof.
  induction p as [| i p IH]; intros cap s g n H.
  - simpl in H. injection H as <- <-. lia.
  - destruct i as [l | k [|] | k]; simpl in H.
    + destruct (strip_prefix l s) as [r |] eqn:E; [ | discriminate ].
      apply bump_some in H. destruct H as [m [H ->]].
      apply strip_prefix_length in E. specialize (IH cap r g m H). lia.
    + apply (greedy_loop_within k _ (IH cap) s g n H).
    + apply (lazy_loop_within k _ (IH cap) s g n H).
    + apply (plus_loop_within k _ IH [] s g n H).
Qed.

(** Every pattern of the class starts with the literal "(combat) <":
    none has an empty match. *)
Lemma match_here_literal_first l p cap s g n :
  match_here (Lit l :: p) cap s = Some (g, n) -> length l <= n.
Proof.
  simpl. destruct (strip_prefix l s); [ | discriminate ].
  intros H. apply bump_some in H. destruct H as [m [_ ->]]. lia.
Qed.

Lemma match_here_nonempty p :
  In p all_regexes ->
  forall cap s g n, match_here p cap s = Some (g, n) -> 0 < n.
Proof.
  intros Hp cap s g n H. unfold all_regexes in Hp. simpl in Hp.
  repeat (destruct Hp as [<- | Hp];
          [apply match_here_literal_first in H; simpl in H; lia |]).
  contradiction.
Qed.

(** ** The group holds a number *)

Lemma greedy_loop_from k cont s r :
  greedy_loop k cont s = Some r -> exists s' r', cont s' = Some r'
                                              /\ fst r' = fst r.
Proof.
  revert r. induction s as [| c s IH]; intros r H; simpl in H.
  - exists [], r. split; [exact H | reflexivity].
  - destruct (cls_match k c); [ | exists (c :: s), r; split; [exact H | reflexivity] ].
    destruct (greedy_loop k cont s) as [[g m] |] eqn:E;
      [ | exists (c :: s), r; split; [exact H | reflexivity] ].
    simpl in H. injection H as <-.
    destruct (IH _ eq_refl) as [s' [r' [H1 H2]]].
    exists s', r'. split; [exact H1 | exact H2].
Qed.

Lemma lazy_loop_from k cont s r :
  lazy_loop k cont s = Some r -> exists s' r', cont s' = Some r'
                                            /\ fst r' = fst r.
Proof.
  revert r. induction s as [| c s IH]; intros r H; simpl in H.
  - destruct (cont []) as [r0 |] eqn:E; [ | discriminate ].
    injection H as ->. exists [], r. split; [exact E | reflexivity].
  - destruct (cont (c :: s)) as [r0 |] eqn:E.
    + injection H as ->. exists (c :: s), r. split; [exact E | reflexivity].
    + destruct (cls_match k c); [ | discriminate ].
      destruct r as [g n]. apply bump_some in H. destruct H as [m [H ->]].
      destruct (IH _ H) as [s' [r' [H1 H2]]].
      exists s', r'. split; [exact H1 | exact H2].
Qed.

Lemma plus_loop_from cont s :
  forall acc r, forallb is_digit acc = true ->
    plus_loop Digit cont acc s = Some r ->
    exists acc' s' r', digits acc' /\ cont acc' s' = Some r'
                       /\ fst r' = fst r.
Proof.
  induction s as [| c s IH]; intros acc r Hacc H; simpl in H; [discriminate |].
  destruct (is_digit c) eqn:Ec; [ | discriminate ].
  assert (Hacc' : forallb is_digit (acc ++ [c]) = true).
  { rewrite forallb_app, Hacc. simpl. rewrite Ec. reflexivity. }
  destruct (plus_loop Digit cont (acc ++ [c]) s) as [[g m] |] eqn:E.
  - simpl in H. injection H as <-.
    destruct (IH _ _ Hacc' E) as [acc' [s' [r' [H1 [H2 H3]]]]].
    exists acc', s', r'. repeat split; try assumption; apply H1.
  - destruct r as [g n]. apply bump_some in H. destruct H as [m [H ->]].
    exists (acc ++ [c]), s, (g, m). repeat split; try assumption.
    intros Hnil. apply app_eq_nil in Hnil. destruct Hnil as [_ Hnil].
    discriminate.
Qed.

Lemma match_here_digits p :
  forallb digit_group p = true ->
  forall cap s r, match_here p cap s = Some r ->
    existsb is_group p = true \/ digits cap -> digits (fst r).
Proof.
  induction p as [| i p IH]; intros Hp cap s r H Hg.
  - simpl in H. injection H as <-. destruct Hg as [Hg | Hg]; [discriminate | exact Hg].
  - simpl in Hp. apply andb_true_iff in Hp. destruct Hp as [Hi Hp].
    destruct i as [l | k [|] | k]; simpl in H, Hg.
    + destruct (strip_prefix l s) as [s' |]; [ | discriminate ].
      destruct r as [g n]. apply bump_some in H. destruct H as [m [H ->]].
      apply (IH Hp cap s' (g, m) H Hg).
    + apply greedy_loop_from in H. destruct H as [s' [r' [H <-]]].
      apply (IH Hp cap s' r' H Hg).
    + apply lazy_loop_from in H. destruct H as [s' [r' [H <-]]].
      apply (IH Hp cap s' r' H Hg).
    + destruct k; [discriminate |].
      apply plus_loop_from in H; [ | reflexivity ].
      destruct H as [acc' [s' [r' [Hd [H <-]]]]].
      apply (IH Hp acc' s' r' H). right. exact Hd.
Qed.

Lemma scan_digits p :
  grouped p = true ->
  forall s k, Forall digits (scan p k s).
Proof.
  intros Hp. apply andb_true_iff in Hp. destruct Hp as [Hg Hd].
  induction s as [| c s IH]; intros k; simpl; [constructor |].
  destruct k as [| k]; [ | apply IH ].
  destruct (match_here p [] (c :: s)) as [[g n] |] eqn:E; [ | apply IH ].
  constructor; [ | apply IH ].
  apply (match_here_digits p Hd [] (c :: s) (g, n) E). left. exact Hg.
Qed.

(** ** [findall] over a text cut between two lines *)

Lemma last_In (c : ascii) (a : text) : In (last (c :: a) nl) (c :: a).
Proof.
  revert c. induction a as [| d a IH]; intros c.
  - left. reflexivity.
  - right. apply (IH d).
Qed.

Lemma last_closed c a b :
  line_boundary (c :: a) b -> closed_by (c :: a) b /\ line_boundary a b.
Proof.
  intros [Ha | Hb].
  - split.
    + left. rewrite <- Ha. apply last_In.
    + left. destruct a as [| d a]; [reflexivity | exact Ha].
  - split; right; exact Hb.
Qed.

Lemma scan_app p :
  nl_free p = true ->
  forall a b, line_boundary a b ->
    forall k, k <= length a ->
      scan p k (a ++ b) = scan p k a ++ scan p 0 b.
Proof.
  intros Hp. induction a as [| c a IH]; intros b Hab k Hk.
  - simpl in Hk. assert (k = 0) by lia. subst k. reflexivity.
  - destruct (last_closed c a b Hab) as [Hc Hab'].
    change ((c :: a) ++ b) with (c :: (a ++ b)). simpl scan at 1 2.
    destruct k as [| k].
    + pose proof (match_here_local b p Hp [] (c :: a) Hc) as Hm.
      simpl app in Hm. rewrite Hm.
      destruct (match_here p [] (c :: a)) as [[g n] |] eqn:E.
      * apply match_here_within in E. simpl in E.
        rewrite IH by (try assumption; lia). reflexivity.
      * rewrite IH by (try assumption; lia). reflexivity.
    + simpl in Hk. apply IH; [assumption | lia].
Qed.

Lemma findall_app p a b :
  nl_free p = true -> line_boundary a b ->
  findall p (a ++ b) = findall p a ++ findall p b.
Proof. intros Hp Hab. apply scan_app; [assumption | assumption | lia]. Qed.

(** ** [extractValues] *)

Local Open Scope Z_scope.

Lemma int_loop_digits s :
  forallb is_digit s = true -> forall acc, exists v, int_loop acc s = Ok v.
Proof.
  induction s as [| c s IH]; intros H acc; simpl.
  - exists acc. reflexivity.
  - simpl in H. apply andb_true_iff in H. destruct H as [Hc Hs].
    rewrite Hc. apply IH. exact Hs.
Qed.

Lemma int_digits g : digits g -> exists v, int_ g = Ok v.
Proof.
  intros [Hne Hd]. destruct g as [| c g]; [contradiction |].
  unfold int_. apply int_loop_digits. exact Hd.
Qed.

Lemma sum_matches_total l :
  Forall digits l -> forall acc, exists v, sum_matches acc l = Ok v.
Proof.
  induction 1 as [| g l Hg Hl IH]; intros acc; simpl.
  - exists acc. reflexivity.
  - destruct (int_digits g Hg) as [v ->]. simpl. apply IH.
Qed.

Lemma sum_matches_shift l :
  forall acc v d, sum_matches acc l = Ok v ->
    sum_matches (d + acc) l = Ok (d + v).
Proof.
  induction l as [| g l IH]; intros acc v d H; simpl in *.
  - injection H as <-. reflexivity.
  - destruct (int_ g) as [w | e]; simpl in *; [ | discriminate ].
    rewrite <- Z.add_assoc. apply IH. exact H.
Qed.

Lemma sum_matches_app l1 l2 y :
  sum_matches 0 l2 = Ok y ->
  forall acc x, sum_matches acc l1 = Ok x ->
    sum_matches acc (l1 ++ l2) = Ok (x + y).
Proof.
  intros H2. induction l1 as [| g l1 IH]; intros acc x H1; simpl in *.
  - injection H1 as <-.
    rewrite <- (Z.add_0_r acc) at 1. apply sum_matches_shift. exact H2.
  - destruct (int_ g) as [w | e]; simpl in *; [ | discriminate ].
    apply IH. exact H1.
Qed.

Lemma extractValues_sum p logData :
  extractValues p logData = sum_matches 0 (findall p logData).
Proof. unfold extractValues. destruct (findall p logData); reflexivity. Qed.

Lemma extractValues_total p logData :
  grouped p = true -> exists v, extractValues p logData = Ok v.
Proof.
  intros Hp. rewrite extractValues_sum. apply sum_matches_total.
  apply scan_digits. exact Hp.
Qed.

Lemma extractValues_app p a b x y :
  nl_free p = true -> line_boundary a b ->
  extractValues p a = Ok x -> extractValues p b = Ok y ->
  extractValues p (a ++ b) = Ok (x + y).
Proof.
  intros Hp Hab. rewrite !extractValues_sum. intros Ha Hb.
  rewrite findall_app by assumption. apply sum_matches_app; assumption.
Qed.

Lemma search_none_scan p s :
  search p s = None -> forall k, scan p k s = [].
Proof.
  induction s as [| c s IH]; intros H k; [reflexivity |].
  simpl in H. simpl.
  destruct (match_here p [] (c :: s)) as [[g n] |]; [discriminate |].
  destruct k; apply IH; exact H.
Qed.

Lemma extractValues_none p logData :
  search p logData = None -> extractValues p logData = Ok 0.
Proof.
  intros H. unfold extractValues, findall.
  rewrite (search_none_scan p logData H 0). reflexivity.
Qed.

(** ** [BaseLogReader.readLog] *)

Lemma all_regexes_nl_free : forallb nl_free all_regexes = true.
Proof. reflexivity. Qed.

Lemma all_regexes_grouped : forallb grouped all_regexes = true.
Proof. reflexivity. Qed.

Lemma regex_nl_free p : In p all_regexes -> nl_free p = true.
Proof.
  intros H. pose proof all_regexes_nl_free as A.
  rewrite forallb_forall in A. apply A. exact H.
Qed.

Lemma regex_grouped p : In p all_regexes -> grouped p = true.
Proof.
  intros H. pose proof all_regexes_grouped as A.
  rewrite forallb_forall in A. apply A. exact H.
Qed.

Ltac in_regexes := unfold all_regexes; simpl; tauto.

(** Names the value of [extractValues p d]. *)
Ltac value_of p d :=
  let I := fresh in
  let v := fresh "x" in
  let H := fresh "E" in
  assert (I : In p all_regexes) by in_regexes;
  destruct (extractValues_total p d (regex_grouped p I)) as [v H];
  clear I.

Ltac all_values d :=
  value_of damageOutRegex d;
  value_of damageInRegex d;
  value_of armorRepairedOutRegex d;
  value_of hullRepairedOutRegex d;
  value_of shieldBoostedOutRegex d;
  value_of armorRepairedInRegex d;
  value_of hullRepairedInRegex d;
  value_of shieldBoostedInRegex d;
  value_of capTransferedOutRegex d;
  value_of capTransferedInRegex d;
  value_of nosRecievedRegex d;
  value_of capNeutralizedOutRegex d;
  value_of capNeutralizedInRegex d;
  value_of nosTakenRegex d.

(** The scenarios of the specification. *)
Example hit_is_damage_out :
  BaseLogReader_readLog Sample.hit = Ok (125, 0, 0, 0, 0, 0, 0, 0).
Proof. vm_compute. reflexivity. Qed.

Example incoming_is_damage_in :
  BaseLogReader_readLog Sample.incoming = Ok (0, 40, 0, 0, 0, 0, 0, 0).
Proof. vm_compute. reflexivity. Qed.

Example hit_and_incoming :
  BaseLogReader_readLog (Sample.hit ++ Sample.incoming)
  = Ok (125, 40, 0, 0, 0, 0, 0, 0).
Proof. vm_compute. reflexivity. Qed.

Example findall_drained :
  findall nosRecievedRegex (Sample.drained "10" ++ Sample.drained "15")
  = [T "10"; T "15"].
Proof. vm_compute. reflexivity. Qed.

(** Settles a goal [exists ta tb, readLog a = Ok ta /\ readLog b = Ok tb
    /\ readLog (a ++ b) = Ok (totals_add ta tb)] from [Hab], the cut
    between [a] and [b]: pattern by pattern, the sum over [a ++ b] is
    the sum over [a] plus the sum over [b]. *)
Ltac sum_by_pattern a b Hab :=
  all_values a; all_values b;
  unfold BaseLogReader_readLog;
  repeat match goal with
    Ha : extractValues ?p a = Ok ?x, Hb : extractValues ?p b = Ok ?y |- _ =>
      rewrite (extractValues_app p a b x y
                 (regex_nl_free p ltac:(in_regexes)) Hab Ha Hb);
      rewrite Ha, Hb; clear Ha Hb
    end;
  cbn [bind]; do 2 eexists;
  split; [reflexivity |]; split; [reflexivity |];
  unfold totals_add; apply f_equal;
  repeat match goal with |- (_, _) = (_, _) => apply f_equal2 end; lia.

(** C1, as the code has it: for all text blocks a and b cut between two
    lines (a is empty or ends with a newline, or b is empty or starts
    with one), [BaseLogReader.readLog] succeeds on a, on b and on a ++ b,
    and its tuple on a ++ b is the componentwise sum of its tuples on a
    and on b. *)
Theorem readLog_additive_between_lines (a b : text) :
  line_boundary a b ->
  exists ta tb,
    BaseLogReader_readLog a = Ok ta /\
    BaseLogReader_readLog b = Ok tb /\
    BaseLogReader_readLog (a ++ b) = Ok (totals_add ta tb).
Proof. intros Hab. sum_by_pattern a b Hab. Qed.

Lemma readLog_additive_between_lines_witness :
  line_boundary Sample.hit (Sample.drained "10") /\
  exists ta tb,
    BaseLogReader_readLog Sample.hit = Ok ta /\
    BaseLogReader_readLog (Sample.drained "10") = Ok tb /\
    BaseLogReader_readLog (Sample.hit ++ Sample.drained "10")
    = Ok (totals_add ta tb).
Proof.
  assert (H : line_boundary Sample.hit (Sample.drained "10"))
    by (left; reflexivity).
  split; [exact H |].
  apply (readLog_additive_between_lines _ _ H).
Defined.

(** C1 fails when the cut falls inside a line: the hit of 125 read in
    two blocks, the first ending after "12", gives nothing in either
    block and 125 in their concatenation. *)
Lemma readLog_not_additive_inside_line :
  Sample.hit_head ++ Sample.hit_tail = Sample.hit /\
  BaseLogReader_readLog Sample.hit_head = Ok zero_totals /\
  BaseLogReader_readLog Sample.hit_tail = Ok zero_totals /\
  BaseLogReader_readLog (Sample.hit_head ++ Sample.hit_tail)
  = Ok (125, 0, 0, 0, 0, 0, 0, 0) /\
  ~ (forall a b ta tb,
       BaseLogReader_readLog a = Ok ta ->
       BaseLogReader_readLog b = Ok tb ->
       BaseLogReader_readLog (a ++ b) = Ok (totals_add ta tb)).
Proof.
  assert (Ha : BaseLogReader_readLog Sample.hit_head = Ok zero_totals)
    by (vm_compute; reflexivity).
  assert (Hb : BaseLogReader_readLog Sample.hit_tail = Ok zero_totals)
    by (vm_compute; reflexivity).
  assert (Hab : BaseLogReader_readLog (Sample.hit_head ++ Sample.hit_tail)
                = Ok (125, 0, 0, 0, 0, 0, 0, 0))
    by (vm_compute; reflexivity).
  split; [reflexivity |]. repeat split; try assumption.
  intros H. specialize (H _ _ _ _ Ha Hb). rewrite Hab in H. discriminate.
Qed.

(** C2: on every text block the capacitor-received total is the sum for
    the transmitted-by pattern plus the sum of the values captured by
    the energy-drained-from pattern, and the capacitor-damage-done total
    is the sum for the neutralized pattern plus that same sum; and two
    energy-drained-from lines of 10 and 15 after any whole lines add 25
    to both components and nothing to the others. *)
Theorem energy_drained_counts_twice :
  (forall logData, exists received neutralized drained t,
      extractValues capTransferedInRegex logData = Ok received /\
      extractValues capNeutralizedOutRegex logData = Ok neutralized /\
      sum_matches 0 (findall nosRecievedRegex logData) = Ok drained /\
      BaseLogReader_readLog logData = Ok t /\
      capRecieved_of t = received + drained /\
      capDamageDone_of t = neutralized + drained) /\
  (forall logData, last logData nl = nl ->
     exists t,
       BaseLogReader_readLog logData = Ok t /\
       BaseLogReader_readLog
         (logData ++ Sample.drained "10" ++ Sample.drained "15")
       = Ok (totals_add t (0, 0, 0, 0, 0, 25, 25, 0))).
Proof.
  split.
  - intros logData. all_values logData.
    exists x8, x10, x9. eexists.
    split; [assumption |]. split; [assumption |].
    split; [rewrite <- extractValues_sum; assumption |].
    unfold BaseLogReader_readLog.
    repeat match goal with H : extractValues _ _ = Ok _ |- _ =>
      rewrite H; clear H end.
    cbn [bind]. split; [reflexivity |]. split; reflexivity.
  - intros logData Hl.
    assert (Hcut : line_boundary logData
                     (Sample.drained "10" ++ Sample.drained "15"))
      by (left; exact Hl).
    assert (H : exists ta tb,
               BaseLogReader_readLog logData = Ok ta /\
               BaseLogReader_readLog
                 (Sample.drained "10" ++ Sample.drained "15") = Ok tb /\
               BaseLogReader_readLog
                 (logData ++ Sample.drained "10" ++ Sample.drained "15")
               = Ok (totals_add ta tb)).
    { set (lines := Sample.drained "10" ++ Sample.drained "15") in *.
      clearbody lines. sum_by_pattern logData lines Hcut. }
    destruct H as [ta [tb [Ha [Hb Hab]]]].
    exists ta. split; [exact Ha |]. rewrite Hab.
    assert (E : BaseLogReader_readLog
                  (Sample.drained "10" ++ Sample.drained "15")
                = Ok (0, 0, 0, 0, 0, 25, 25, 0)) by (vm_compute; reflexivity).
    rewrite E in Hb. injection Hb as <-. reflexivity.
Qed.

Lemma energy_drained_counts_twice_witness :
  last Sample.hit nl = nl /\
  exists t,
    BaseLogReader_readLog Sample.hit = Ok t /\
    BaseLogReader_readLog
      (Sample.hit ++ Sample.drained "10" ++ Sample.drained "15")
    = Ok (totals_add t (0, 0, 0, 0, 0, 25, 25, 0)).
Proof.
  split; [reflexivity |].
  apply (proj2 energy_drained_counts_twice Sample.hit). reflexivity.
Defined.

(** C3: for every text block in which none of the fourteen patterns
    matches anywhere, [BaseLogReader.readLog] raises nothing and
    returns the all-zero tuple. *)
Theorem readLog_without_match_is_zero (logData : text) :
  (forall p, In p all_regexes -> search p logData = None) ->
  BaseLogReader_readLog logData = Ok zero_totals.
Proof.
  intros H. unfold BaseLogReader_readLog.
  rewrite !extractValues_none by (apply H; in_regexes).
  reflexivity.
Qed.

Lemma readLog_without_match_is_zero_witness :
  (forall p, In p all_regexes -> search p Sample.notify = None) /\
  BaseLogReader_readLog Sample.notify = Ok zero_totals.
Proof.
  assert (H : forall p, In p all_regexes -> search p Sample.notify = None).
  { intros p Hp. unfold all_regexes in Hp. simpl in Hp.
    repeat (destruct Hp as [<- | Hp]; [vm_compute; reflexivity |]).
    contradiction. }
  split; [exact H |].
  apply (readLog_without_match_is_zero _ H).
Defined.

Local Close Scope Z_scope.

(* ================================================================== *)
(** * Properties of the session readers *)

(** ** Reading a file line by line *)

Lemma take_line_length s : length (take_line s) <= length s.
Proof.
  induction s as [| c s IH]; simpl; [lia |].
  destruct (Ascii.eqb c nl); simpl; lia.
Qed.

Section OneFile.

Variable fs : filesystem.
Variable p : path.
Variable c : text.
Hypothesis Hfile : fs p = Some c.

Lemma contents_file : contents fs p = c.
Proof. unfold contents. rewrite Hfile. reflexivity. Qed.

Lemma at_line_open : at_line p c 0 {| name := p; pos := 0 |}.
Proof. repeat split. simpl. lia. Qed.

Lemma readline_at k f :
  at_line p c k f ->
  exists f', readline fs f = (line k c, f') /\ at_line p c (S k) f'.
Proof.
  intros [Hn [Hp Hs]]. unfold readline, remaining.
  rewrite Hn, contents_file, Hs. fold (line k c).
  eexists. split; [reflexivity |].
  unfold at_line, advance. simpl.
  split; [exact Hn |].
  pose proof (take_line_length (drop_lines k c)) as Hl.
  fold (line k c) in Hl.
  assert (Hd : length (drop_lines k c) = length c - pos f)
    by (rewrite <- Hs; apply length_skipn).
  split; [lia |].
  rewrite Nat.add_comm, <- skipn_skipn, Hs. reflexivity.
Qed.

Lemma read_at k f :
  at_line p c k f ->
  read fs f = (drop_lines k c, {| name := p; pos := length c |}).
Proof.
  intros [Hn [Hp Hs]]. unfold read, remaining.
  rewrite Hn, contents_file, Hs. unfold advance.
  rewrite Hn, <- Hs, length_skipn. f_equal. f_equal. lia.
Qed.

(** What [LogReader(logPath)] gives on the file, by its lines. *)
Lemma LogReader_init_lines :
  LogReader_init fs p =
  match search_after Listener (line 2 c) with
  | None => Raise (BadLogException "not character log")
  | Some _ =>
      if text_eqb (line 5 c) separator then
        match search_after Listener (line 7 c) with
        | Some _ => Raise (BadLogException "log file collision")
        | None => Raise AttributeError
        end
      else Ok {| log := {| name := p; pos := length c |};
                 logLine := line 5 c |}
  end.
Proof.
  unfold LogReader_init, open_. rewrite Hfile. cbn [bind].
  destruct (readline_at 0 _ at_line_open) as [f1 [E1 H1]]. rewrite E1.
  destruct (readline_at 1 _ H1) as [f2 [E2 H2]]. rewrite E2.
  destruct (readline_at 2 _ H2) as [f3 [E3 H3]]. rewrite E3.
  destruct (search_after Listener (line 2 c)); [ | reflexivity ].
  destruct (readline_at 3 _ H3) as [f4 [E4 H4]]. rewrite E4.
  destruct (readline_at 4 _ H4) as [f5 [E5 H5]]. rewrite E5.
  destruct (readline_at 5 _ H5) as [f6 [E6 H6]]. rewrite E6.
  destruct (text_eqb (line 5 c) separator).
  - destruct (readline_at 6 _ H6) as [f7 [E7 H7]]. rewrite E7.
    destruct (readline_at 7 _ H7) as [f8 [E8 H8]]. rewrite E8.
    destruct (search_after Listener (line 7 c)); reflexivity.
  - rewrite (read_at 6 _ H6). reflexivity.
Qed.

End OneFile.

(** ** The live reader *)

Lemma readLog_empty : BaseLogReader_readLog [] = Ok zero_totals.
Proof. reflexivity. Qed.

Lemma remaining_after_read fs f : remaining fs (snd (read fs f)) = [].
Proof.
  unfold read, remaining, advance. simpl.
  apply skipn_all2. rewrite length_skipn. lia.
Qed.

(** C7: for every live reader and every state of the files,
    [catchup()] followed by [readLog()] on the same files reads the
    empty text: [readLog] returns the all-zero tuple and leaves the
    cursor where [catchup] put it. *)
Theorem catchup_then_readLog_is_zero (fs : filesystem) (self : LogReader) :
  fst (read fs (log (catchup fs self))) = [] /\
  LogReader_readLog fs (catchup fs self) = (Ok zero_totals, catchup fs self).
Proof.
  assert (H : remaining fs (log (catchup fs self)) = [])
    by apply remaining_after_read.
  split; [exact H |].
  unfold LogReader_readLog, read. rewrite H. rewrite readLog_empty.
  f_equal. unfold catchup, read, advance. simpl. rewrite Nat.add_0_r.
  reflexivity.
Qed.

(** C10: when [LogReader(logPath)] succeeds on a file, the cursor of
    the reader is at the end of the text the file held at that time;
    whatever text is appended to the file afterwards, the first
    [readLog()] returns the totals of the appended text alone and moves
    the cursor to the new end. *)
Theorem LogReader_init_reads_to_end (fs : filesystem) (logPath : path)
  (c : text) (self : LogReader) :
  fs logPath = Some c ->
  LogReader_init fs logPath = Ok self ->
  log self = {| name := logPath; pos := length c |} /\
  forall (fs' : filesystem) (appended : text),
    fs' logPath = Some (c ++ appended) ->
    fst (read fs' (log self)) = appended /\
    LogReader_readLog fs' self =
    (BaseLogReader_readLog appended,
     {| log := {| name := logPath; pos := length (c ++ appended) |};
        logLine := logLine self |}).
Proof.
  intros Hfile Hinit. rewrite (LogReader_init_lines fs logPath c Hfile) in Hinit.
  destruct (search_after Listener (line 2 c)); [ | discriminate ].
  destruct (text_eqb (line 5 c) separator).
  { destruct (search_after Listener (line 7 c)); discriminate. }
  injection Hinit as <-. cbn [log logLine]. split; [reflexivity |].
  intros fs' appended Hfile'.
  assert (R : read fs' {| name := logPath; pos := length c |}
              = (appended,
                 {| name := logPath; pos := length (c ++ appended) |})).
  { unfold read, remaining, advance, contents. simpl. rewrite Hfile'.
    rewrite skipn_app, Nat.sub_diag, skipn_all. simpl.
    rewrite length_app. reflexivity. }
  split; [rewrite R; reflexivity |].
  unfold LogReader_readLog. cbn [log logLine]. rewrite R. reflexivity.
Qed.

Lemma Sample_session_reader :
  LogReader_init (Sample.one_file Sample.log_txt Sample.session) Sample.log_txt
  = Ok {| log := {| name := Sample.log_txt; pos := length Sample.session |};
          logLine := Sample.hit |}.
Proof. vm_compute. reflexivity. Qed.

Lemma LogReader_init_reads_to_end_witness :
  BaseLogReader_readLog (Sample.drained "10")
  = Ok (0, 0, 0, 0, 0, 10, 10, 0)%Z /\
  fst (LogReader_readLog
         (Sample.one_file Sample.log_txt (Sample.session ++ Sample.drained "10"))
         {| log := {| name := Sample.log_txt; pos := length Sample.session |};
            logLine := Sample.hit |})
  = BaseLogReader_readLog (Sample.drained "10").
Proof.
  split; [vm_compute; reflexivity |].
  destruct (LogReader_init_reads_to_end
              (Sample.one_file Sample.log_txt Sample.session) Sample.log_txt
              Sample.session _ eq_refl Sample_session_reader) as [_ H].
  destruct (H (Sample.one_file Sample.log_txt
                 (Sample.session ++ Sample.drained "10"))
              (Sample.drained "10") eq_refl) as [_ H'].
  rewrite H'. reflexivity.
Defined.

(* ================================================================== *)
(** * Properties of the character registry *)

Lemma text_eqb_eq a b : text_eqb a b = true <-> a = b.
Proof.
  unfold text_eqb. destruct (list_eq_dec ascii_dec a b); split; intros H;
    try reflexivity; try assumption; try discriminate; contradiction.
Qed.

Lemma text_eqb_refl a : text_eqb a a = true.
Proof. apply text_eqb_eq. reflexivity. Qed.

Lemma length_store {A} (l : list A) :
  forall j v, length (store l j v) = length l.
Proof.
  induction l as [| a l IH]; intros j v; [reflexivity |].
  destruct j; simpl; [reflexivity |]. rewrite IH. reflexivity.
Qed.

Lemma nth_error_store_other {A} (l : list A) :
  forall i j v, j <> i -> nth_error (store l i v) j = nth_error l j.
Proof.
  induction l as [| a l IH]; intros i j v H; [reflexivity |].
  destruct i, j; simpl; try reflexivity; try contradiction.
  apply IH. congruence.
Qed.

Lemma nth_error_store_same {A} (l : list A) :
  forall i v, i < length l -> nth_error (store l i v) i = Some v.
Proof.
  induction l as [| a l IH]; intros i v H; simpl in H; [lia |].
  destruct i; simpl; [reflexivity |]. apply IH. lia.
Qed.

Lemma find_entry_In character entries :
  In character entries ->
  forall k, exists i, find_entry character entries k = Some i.
Proof.
  induction entries as [| e entries IH]; intros H k; [contradiction |].
  simpl. destruct (text_eqb character e) eqn:E.
  - exists k. reflexivity.
  - destruct H as [H | H].
    + subst e. rewrite text_eqb_refl in E. discriminate.
    + apply IH. exact H.
Qed.

Lemma find_entry_nth character entries :
  forall k i, find_entry character entries k = Some i ->
    k <= i /\ nth_error entries (i - k) = Some character.
Proof.
  induction entries as [| e entries IH]; intros k i H; [discriminate |].
  simpl in H. destruct (text_eqb character e) eqn:E.
  - injection H as <-. apply text_eqb_eq in E. subst e.
    rewrite Nat.sub_diag. split; [lia | reflexivity].
  - destruct (IH _ _ H) as [Hk Hn]. split; [lia |].
    replace (i - k) with (S (i - S k)) by lia. exact Hn.
Qed.

(** What [addLog] does with a file, by its lines. *)
Lemma addLog_lines self fs logPath c :
  fs logPath = Some c ->
  addLog self fs logPath =
  match search_after Listener (line 2 c) with
  | None => (Ok tt, self)
  | Some character =>
      match find_entry character (menuEntries self) 0 with
      | Some i =>
          match LogReader_init fs logPath with
          | Raise (BadLogException _) => (Ok tt, self)
          | Raise e => (Raise e, self)
          | Ok newLogReader =>
              match setitem (logReaders self) i newLogReader with
              | Ok l => (Ok tt, set_logReaders self l)
              | Raise e => (Raise e, self)
              end
          end
      | None =>
          match LogReader_init fs logPath with
          | Raise (BadLogException _) => (Ok tt, self)
          | Raise e => (Raise e, self)
          | Ok newLogReader =>
              (Ok tt,
               {| menuEntries := menuEntries self ++ [character];
                  logReaders := logReaders self ++ [newLogReader];
                  selectedIndex := selectedIndex self;
                  playbackLogReader := playbackLogReader self;
                  characterMenu :=
                    characterMenu self ++
                    [(character, Z.of_nat (length (menuEntries self)))] |})
          end
      end
  end.
Proof.
  intros Hfile. unfold addLog, open_. rewrite Hfile.
  destruct (readline_at fs logPath c Hfile 0 _ (at_line_open logPath c))
    as [f1 [E1 H1]]. rewrite E1.
  destruct (readline_at fs logPath c Hfile 1 _ H1) as [f2 [E2 H2]]. rewrite E2.
  destruct (readline_at fs logPath c Hfile 2 _ H2) as [f3 [E3 H3]]. rewrite E3.
  reflexivity.
Qed.

(** [addLog] of a file that [LogReader] refuses changes nothing. *)
Lemma addLog_refused self fs logPath e :
  LogReader_init fs logPath = Raise e ->
  snd (addLog self fs logPath) = self.
Proof.
  intros Hinit. destruct (fs logPath) as [c |] eqn:Hfile.
  - rewrite (addLog_lines self fs logPath c Hfile), Hinit.
    destruct (search_after Listener (line 2 c)); [ | reflexivity ].
    destruct (find_entry _ _ 0); destruct e; reflexivity.
  - unfold addLog, open_. rewrite Hfile. reflexivity.
Qed.

(** C5: for every file whose sixth line, the line after the header, is
    the separator, [LogReader(logPath)] raises: the exception is
    [BadLogException("log file collision")] when the header names a
    listener and the line two below the separator names the second one,
    [AttributeError] when that line names none, and
    [BadLogException("not character log")] when the header names no
    listener; and [addLog] of the file leaves the detector as it was,
    readers, character names and menu included. *)
Theorem collision_file_is_refused (fs : filesystem) (logPath : path)
  (c : text) :
  fs logPath = Some c ->
  line 5 c = separator ->
  LogReader_init fs logPath =
  Raise (match search_after Listener (line 2 c) with
         | None => BadLogException "not character log"
         | Some _ =>
             match search_after Listener (line 7 c) with
             | Some _ => BadLogException "log file collision"
             | None => AttributeError
             end
         end) /\
  forall self, snd (addLog self fs logPath) = self.
Proof.
  intros Hfile Hsep.
  assert (H : LogReader_init fs logPath =
              Raise (match search_after Listener (line 2 c) with
                     | None => BadLogException "not character log"
                     | Some _ =>
                         match search_after Listener (line 7 c) with
                         | Some _ => BadLogException "log file collision"
                         | None => AttributeError
                         end
                     end)).
  { rewrite (LogReader_init_lines fs logPath c Hfile), Hsep, text_eqb_refl.
    destruct (search_after Listener (line 2 c)); [ | reflexivity ].
    destruct (search_after Listener (line 7 c)); reflexivity. }
  split; [exact H |].
  intros self. apply (addLog_refused self fs logPath _ H).
Qed.

Lemma collision_file_is_refused_witness :
  LogReader_init (Sample.one_file Sample.log_txt Sample.collision)
    Sample.log_txt
  = Raise (BadLogException "log file collision") /\
  forall self,
    snd (addLog self (Sample.one_file Sample.log_txt Sample.collision)
           Sample.log_txt) = self.
Proof.
  exact (collision_file_is_refused
           (Sample.one_file Sample.log_txt Sample.collision)
           Sample.log_txt Sample.collision eq_refl eq_refl).
Defined.

(** C6: when [addLog] is given a file whose character is already in
    [menuEntries], at position [i] for the first time, the character
    names, the menu with its labels and values, the selection, the
    playback reader and the number of readers are unchanged, every
    reader at a position other than [i] is unchanged, and the reader at
    position [i] is the new one when its construction succeeded. *)
Theorem addLog_known_character_replaces_reader (self : CharacterDetector)
  (fs : filesystem) (logPath : path) (c character : text) :
  fs logPath = Some c ->
  search_after Listener (line 2 c) = Some character ->
  In character (menuEntries self) ->
  exists i,
    find_entry character (menuEntries self) 0 = Some i /\
    nth_error (menuEntries self) i = Some character /\
    let self' := snd (addLog self fs logPath) in
    menuEntries self' = menuEntries self /\
    characterMenu self' = characterMenu self /\
    selectedIndex self' = selectedIndex self /\
    playbackLogReader self' = playbackLogReader self /\
    length (logReaders self') = length (logReaders self) /\
    (forall j, j <> i ->
       nth_error (logReaders self') j = nth_error (logReaders self) j) /\
    (forall newLogReader,
       LogReader_init fs logPath = Ok newLogReader ->
       i < length (logReaders self) ->
       nth_error (logReaders self') i = Some newLogReader).
Proof.
  intros Hfile Hch Hin.
  destruct (find_entry_In character (menuEntries self) Hin 0) as [i Hi].
  exists i. split; [exact Hi |].
  destruct (find_entry_nth _ _ _ _ Hi) as [_ Hn].
  rewrite Nat.sub_0_r in Hn. split; [exact Hn |].
  cbv zeta. rewrite (addLog_lines self fs logPath c Hfile), Hch, Hi.
  destruct (LogReader_init fs logPath) as [r | e].
  - unfold setitem. destruct (i <? length (logReaders self)) eqn:Hlt.
    + apply Nat.ltb_lt in Hlt. cbn [snd set_logReaders menuEntries
        characterMenu selectedIndex playbackLogReader logReaders].
      repeat split.
      * apply length_store.
      * intros j Hj. apply nth_error_store_other. exact Hj.
      * intros r' Hr' _. injection Hr' as <-.
        apply nth_error_store_same. exact Hlt.
    + apply Nat.ltb_ge in Hlt. cbn [snd]. repeat split. intros; lia.
  - assert (E : snd (match e with
                     | BadLogException _ => (Ok tt, self)
                     | _ => (Raise e, self)
                     end) = self) by (destruct e; reflexivity).
    rewrite E. repeat split. intros; discriminate.
Qed.

Lemma addLog_known_character_replaces_reader_witness :
  let old := {| log := {| name := Sample.log_txt; pos := 0 |};
                logLine := [] |} in
  let self := {| menuEntries := [T "Alice"];
                 logReaders := [old];
                 selectedIndex := 0%Z;
                 playbackLogReader := None;
                 characterMenu := [(T "Alice", 0%Z)] |} in
  let fs := Sample.one_file Sample.log_txt Sample.session in
  In (T "Alice") (menuEntries self) /\
  snd (addLog self fs Sample.log_txt) =
  set_logReaders self
    [{| log := {| name := Sample.log_txt; pos := length Sample.session |};
        logLine := Sample.hit |}].
Proof.
  intros old self fs.
  assert (Hin : In (T "Alice") (menuEntries self)) by (left; reflexivity).
  split; [exact Hin |].
  destruct (addLog_known_character_replaces_reader self fs Sample.log_txt
              Sample.session (T "Alice") eq_refl eq_refl Hin) as [i _].
  vm_compute. reflexivity.
Defined.

(** ** The states of a detector *)

Local Open Scope Z_scope.

Lemma consistent_fresh : consistent fresh.
Proof. repeat split; simpl; try lia. constructor. Qed.

Lemma consistent_store self j r :
  consistent self ->
  consistent (set_logReaders self (store (logReaders self) j r)).
Proof.
  intros [H1 [H2 [H3 [H4 H5]]]]. unfold consistent. simpl.
  rewrite length_store. repeat split; assumption.
Qed.

Lemma addLog_consistent self fs logPath :
  consistent self -> consistent (snd (addLog self fs logPath)).
Proof.
  intros H. destruct (fs logPath) as [c |] eqn:Hfile.
  2:{ unfold addLog, open_. rewrite Hfile. exact H. }
  rewrite (addLog_lines self fs logPath c Hfile).
  destruct (search_after Listener (line 2 c)) as [character |]; [ | exact H ].
  destruct (find_entry character (menuEntries self) 0) as [i |].
  - destruct (LogReader_init fs logPath) as [r | e].
    + unfold setitem. destruct (i <? length (logReaders self))%nat;
        [ | exact H ].
      apply consistent_store. exact H.
    + destruct e; exact H.
  - destruct (LogReader_init fs logPath) as [r | e]; [ | destruct e; exact H ].
    destruct H as [H1 [H2 [H3 [H4 H5]]]]. unfold consistent. simpl.
    rewrite !length_app. simpl. repeat split; try assumption; try lia.
    apply Forall_app. split.
    + eapply Forall_impl; [ | exact H5 ]. simpl. intros; lia.
    + constructor; [simpl; lia | constructor].
Qed.

Lemma playbackLog_on_consistent made self :
  consistent self -> consistent (snd (playbackLog_on made self)).
Proof.
  intros H. assert (H' : consistent (set_playbackLogReader self None)).
  { destruct H as [H1 [H2 [H3 [H4 H5]]]]. repeat split; assumption. }
  destruct made as [r | e]; [exact H' |]. destruct e; assumption.
Qed.

Lemma readLog_consistent self fs :
  consistent self -> consistent (snd (readLog self fs)).
Proof.
  intros H. unfold readLog. destruct H as [H1 H]. rewrite H1.
  assert (H' : consistent self) by (split; assumption). clear H.
  unfold readLog_live.
  destruct (0 <? length (menuEntries self))%nat; [ | exact H' ].
  destruct (py_index _ _) as [j | e]; [ | exact H' ].
  destruct (getitem _ j) as [r | e]; [ | exact H' ].
  unfold LogReader_readLog. destruct (read fs (log r)) as [d f].
  apply consistent_store. exact H'.
Qed.

Lemma catchupLog_consistent self fs :
  consistent self -> consistent (snd (catchupLog self fs)).
Proof.
  intros H. unfold catchupLog.
  destruct (py_index _ _) as [j | e]; [ | destruct e; exact H ].
  destruct (getitem _ j) as [r | e]; [ | destruct e; exact H ].
  apply consistent_store. exact H.
Qed.

Lemma select_consistent self fs label v :
  consistent self -> In (label, v) (characterMenu self) ->
  consistent (snd (select self fs v)).
Proof.
  intros H Hin. apply catchupLog_consistent.
  destruct H as [H1 [H2 [H3 [H4 H5]]]].
  assert (Hv : 0 <= v < Z.of_nat (length (menuEntries self))).
  { rewrite Forall_forall in H5. apply (H5 _ Hin). }
  unfold consistent. simpl. repeat split; try assumption; lia.
Qed.

Lemma scan_logs_consistent fs files :
  forall self, consistent self -> consistent (snd (scan_logs self fs files)).
Proof.
  induction files as [| filename files IH]; intros self H; [exact H |].
  simpl. pose proof (addLog_consistent self fs filename H) as H'.
  destruct (addLog self fs filename) as [[u | e] self']; simpl in H'.
  - apply IH. exact H'.
  - exact H'.
Qed.

Lemma CharacterDetector_init_consistent fs files self :
  CharacterDetector_init fs files = Ok self -> consistent self.
Proof.
  unfold CharacterDetector_init. destruct files as [files |].
  - pose proof (scan_logs_consistent fs files fresh consistent_fresh) as H.
    destruct (scan_logs fresh fs files) as [[u | e] self']; simpl in H.
    + intros E. injection E as <-.
      destruct H as [H1 [H2 [H3 [H4 H5]]]].
      unfold consistent. simpl. repeat split; try assumption; lia.
    + destruct e; intros E; try discriminate. injection E as <-. exact H.
  - intros E. injection E as <-. apply consistent_fresh.
Qed.

Lemma reachable_consistent strptime self :
  reachable strptime self -> consistent self.
Proof.
  induction 1 as [fs files self Hinit | self fs logPath _ IH
                  | self now fs logPath _ IH | self fs _ IH
                  | self fs label v _ IH Hin].
  - apply (CharacterDetector_init_consistent fs files self Hinit).
  - apply addLog_consistent. exact IH.
  - apply playbackLog_on_consistent. exact IH.
  - apply readLog_consistent. exact IH.
  - apply select_consistent with label; assumption.
Qed.






Local Close Scope Z_scope.

(* ================================================================== *)
(** * Properties of the playback reader *)

Lemma PlaybackLogReader_init_raises strptime now fs logPath :
  exists e, PlaybackLogReader_init strptime now fs logPath = Raise e.
Proof.
  unfold PlaybackLogReader_init.
  destruct (open_ fs logPath) as [f | e0]; [ | eexists; reflexivity ].
  destruct (readline fs f) as [l1 f1].
  destruct (readline fs f1) as [l2 f2].
  destruct (readline fs f2) as [l3 f3].
  destruct (search_after Listener l3); [ | eexists; reflexivity ].
  destruct (readline fs f3) as [l4 f4].
  destruct (group0 _) as [started | e1]; cbn [bind];
    [ | eexists; reflexivity ].
  destruct (strptime_ strptime started _) as [t0 | e2]; cbn [bind];
    [ | eexists; reflexivity ].
  destruct (readline fs f4) as [l5 f5].
  destruct (readline fs f5) as [l6 f6].
  destruct (text_eqb l6 separator).
  - destruct (readline fs f6) as [l7 f7].
    destruct (readline fs f7) as [l8 f8].
    destruct (group0 _) as [other | e3]; cbn [bind];
      [ | eexists; reflexivity ].
    destruct (readline fs f8) as [l9 f9].
    destruct (readline fs f9) as [l10 f10]. cbn [bind].
    destruct (readline fs f10) as [l11 f11].
    eexists; reflexivity.
  - cbn [bind]. destruct (readline fs f6) as [l7 f7].
    eexists; reflexivity.
Qed.

(** C8, what the code does: [PlaybackLogReader(logPath)] returns no
    reader on any file, under any clock: on a well-formed log it raises
    [AttributeError] where it asks the list of [findall] for [group]
    (or [ValueError] where the start of the session does not parse);
    and [readLog] on any instance raises [AttributeError] on
    [self.nextEntry].  No line of a log is ever replayed. *)
Theorem playback_reader_is_never_built :
  (forall strptime now fs logPath r,
      PlaybackLogReader_init strptime now fs logPath <> Ok r) /\
  (forall strptime now,
      PlaybackLogReader_init strptime now
        (Sample.one_file Sample.log_txt
           (Sample.session ++ Sample.drained "10"))
        Sample.log_txt
      = Raise (match strptime (T "2017.03.05 12:00:00") "%Y.%m.%d %X"%string
               with
               | Some _ => AttributeError
               | None => ValueError
               end)) /\
  (forall self, PlaybackLogReader_readLog self = Raise AttributeError).
Proof.
  split; [ | split ].
  - intros strptime now fs logPath r H.
    destruct (PlaybackLogReader_init_raises strptime now fs logPath) as [e E].
    rewrite E in H. discriminate.
  - intros strptime now. vm_compute.
    destruct (strptime _ _); reflexivity.
  - intros self. reflexivity.
Qed.

(** C9: when [PlaybackLogReader(logPath)] returns a reader or raises
    [BadLogException], [playbackLog] returns normally and leaves the
    detector with [playbackLogReader] set to [None] and nothing else
    changed, so that the next [readLog] takes the branches without a
    playback reader; and whatever the constructor does, a detector
    that had no playback reader has none after [playbackLog]. *)
Theorem playbackLog_leaves_no_playback_reader :
  (forall made self,
      (forall e, made = Raise e -> exists msg, e = BadLogException msg) ->
      playbackLog_on made self = (Ok tt, set_playbackLogReader self None) /\
      playbackLogReader (snd (playbackLog_on made self)) = None /\
      forall fs,
        readLog (snd (playbackLog_on made self)) fs
        = readLog_live (snd (playbackLog_on made self)) fs) /\
  (forall strptime now self fs logPath,
      playbackLogReader self = None ->
      playbackLogReader (snd (playbackLog strptime now self fs logPath))
      = None).
Proof.
  split.
  - intros made self H.
    assert (E : playbackLog_on made self
                = (Ok tt, set_playbackLogReader self None)).
    { destruct made as [r | e]; [reflexivity |].
      destruct (H e eq_refl) as [msg ->]. reflexivity. }
    rewrite E. split; [reflexivity |]. split; reflexivity.
  - intros strptime now self fs logPath H. unfold playbackLog.
    destruct (PlaybackLogReader_init strptime now fs logPath) as [r | e];
      [reflexivity |].
    destruct e; try exact H; reflexivity.
Qed.

Lemma playbackLog_leaves_no_playback_reader_witness :
  let fs := Sample.one_file Sample.log_txt Sample.notify in
  PlaybackLogReader_init (fun _ _ => None) 0%Z fs Sample.log_txt
  = Raise (BadLogException "not character log") /\
  playbackLog (fun _ _ => None) 0%Z fresh fs Sample.log_txt
  = (Ok tt, fresh) /\
  playbackLogReader
    (snd (playbackLog (fun _ _ => None) 0%Z fresh fs Sample.log_txt)) = None.
Proof.
  intros fs.
  assert (E : PlaybackLogReader_init (fun _ _ => None) 0%Z fs Sample.log_txt
              = Raise (BadLogException "not character log"))
    by (vm_compute; reflexivity).
  split; [exact E |].
  split.
  - unfold playbackLog. rewrite E.
    apply (proj1 playbackLog_leaves_no_playback_reader
             (Raise (BadLogException "not character log")) fresh).
    intros e He. injection He as <-. eexists. reflexivity.
  - apply (proj2 playbackLog_leaves_no_playback_reader
             (fun _ _ => None) 0%Z fresh fs Sample.log_txt).
    reflexivity.
Defined.

(* ================================================================== *)
(** * Further properties of the extractor *)

Local Open Scope Z_scope.

(** ** The totals are never negative *)

Lemma digit_value_nonneg c : is_digit c = true -> 0 <= digit_value c.
Proof.
  unfold is_digit, digit_value. intros H.
  apply andb_true_iff in H. destruct H as [H _].
  apply Nat.leb_le in H. lia.
Qed.

Lemma int_loop_nonneg s :
  forall acc v, 0 <= acc -> int_loop acc s = Ok v -> 0 <= v.
Proof.
  induction s as [| c s IH]; intros acc v Hacc H; cbn [int_loop] in H.
  - injection H as <-. exact Hacc.
  - destruct (is_digit c) eqn:E; [ | discriminate ].
    apply (IH _ v) in H; [exact H |].
    pose proof (digit_value_nonneg c E). lia.
Qed.

Lemma int_nonneg g v : int_ g = Ok v -> 0 <= v.
Proof.
  destruct g as [| c g]; [discriminate |].
  unfold int_. apply int_loop_nonneg. lia.
Qed.

Lemma sum_matches_nonneg l :
  forall acc v, 0 <= acc -> sum_matches acc l = Ok v -> 0 <= v.
Proof.
  induction l as [| g l IH]; intros acc v Hacc H; simpl in H.
  - injection H as <-. exact Hacc.
  - destruct (int_ g) as [w | e] eqn:E; simpl in H; [ | discriminate ].
    apply int_nonneg in E. apply (IH _ v) in H; [exact H | lia].
Qed.

Lemma extractValues_nonneg p logData v :
  extractValues p logData = Ok v -> 0 <= v.
Proof.
  rewrite extractValues_sum. apply sum_matches_nonneg. lia.
Qed.

(** X1: the totals are never negative: whenever
    [BaseLogReader.readLog] returns a tuple, each of its eight
    components is at least 0. *)
Theorem readLog_totals_are_nonnegative (logData : text) (t : totals) :
  BaseLogReader_readLog logData = Ok t -> totals_nonneg t.
Proof.
  all_values logData.
  repeat match goal with H : extractValues _ _ = Ok _ |- _ =>
    pose proof (extractValues_nonneg _ _ _ H); revert H end.
  intros. unfold BaseLogReader_readLog in *.
  repeat match goal with H : extractValues _ _ = Ok _ |- _ =>
    rewrite H in *; clear H end.
  cbn [bind] in *.
  match goal with H : Ok _ = Ok t |- _ => injection H as <- end.
  unfold totals_nonneg. repeat split; lia.
Qed.

Lemma readLog_totals_are_nonnegative_witness :
  BaseLogReader_readLog Sample.hit = Ok (125, 0, 0, 0, 0, 0, 0, 0) /\
  totals_nonneg (125, 0, 0, 0, 0, 0, 0, 0).
Proof.
  assert (H : BaseLogReader_readLog Sample.hit
              = Ok (125, 0, 0, 0, 0, 0, 0, 0)) by (vm_compute; reflexivity).
  split; [exact H |].
  apply (readLog_totals_are_nonnegative Sample.hit _ H).
Defined.

(** ** A match needs every literal of the pattern *)

Lemma strip_prefix_skipn l :
  forall s r, strip_prefix l s = Some r -> r = skipn (length l) s.
Proof.
  induction l as [| a l IH]; intros s r H; simpl in H.
  - injection H as <-. reflexivity.
  - destruct s as [| c s]; [discriminate |].
    destruct (Ascii.eqb a c); [ | discriminate ].
    simpl. apply IH. exact H.
Qed.

Lemma occurs_here l s r : strip_prefix l s = Some r -> occurs l s = true.
Proof.
  intros H. destruct s; simpl; simpl in H; rewrite H; reflexivity.
Qed.

Lemma occurs_tail l c s : occurs l s = true -> occurs l (c :: s) = true.
Proof.
  intros H. cbn [occurs].
  destruct (strip_prefix l (c :: s)); [reflexivity | exact H].
Qed.

Lemma occurs_skipn l j :
  forall s, occurs l (skipn j s) = true -> occurs l s = true.
Proof.
  induction j as [| j IH]; intros s H; [exact H |].
  destruct s as [| c s]; [exact H |].
  apply occurs_tail. apply IH. exact H.
Qed.

(** The three repetitions hand the rest of the pattern a suffix of the
    text. *)
Lemma greedy_loop_at k cont s :
  forall g n, greedy_loop k cont s = Some (g, n) ->
    exists j m, (n = j + m)%nat /\ cont (skipn j s) = Some (g, m).
Proof.
  induction s as [| c s IH]; intros g n H; simpl in H.
  - exists 0%nat, n. split; [reflexivity | exact H].
  - destruct (cls_match k c);
      [ | exists 0%nat, n; split; [reflexivity | exact H] ].
    destruct (greedy_loop k cont s) as [[g' m'] |] eqn:E;
      [ | exists 0%nat, n; split; [reflexivity | exact H] ].
    simpl in H. injection H as <- <-.
    destruct (IH _ _ eq_refl) as [j [m [-> Hc]]].
    exists (S j), m. split; [reflexivity | exact Hc].
Qed.

Lemma lazy_loop_at k cont s :
  forall g n, lazy_loop k cont s = Some (g, n) ->
    exists j m, (n = j + m)%nat /\ cont (skipn j s) = Some (g, m).
Proof.
  induction s as [| c s IH]; intros g n H; simpl in H.
  - destruct (cont []) as [r |] eqn:E; [ | discriminate ].
    injection H as ->. exists 0%nat, n. split; [reflexivity | exact E].
  - destruct (cont (c :: s)) as [r |] eqn:E.
    + injection H as ->. exists 0%nat, n. split; [reflexivity | exact E].
    + destruct (cls_match k c); [ | discriminate ].
      apply bump_some in H. destruct H as [m' [H ->]].
      destruct (IH _ _ H) as [j [m [-> Hc]]].
      exists (S j), m. split; [reflexivity | exact Hc].
Qed.

Lemma plus_loop_at k cont s :
  forall acc g n, plus_loop k cont acc s = Some (g, n) ->
    exists acc' j m, (n = j + m)%nat /\ cont acc' (skipn j s) = Some (g, m).
Proof.
  induction s as [| c s IH]; intros acc g n H; simpl in H; [discriminate |].
  destruct (cls_match k c); [ | discriminate ].
  destruct (plus_loop k cont (acc ++ [c]) s) as [[g' m'] |] eqn:E.
  - simpl in H. injection H as <- <-.
    destruct (IH _ _ _ E) as [acc' [j [m [-> Hc]]]].
    exists acc', (S j), m. split; [reflexivity | exact Hc].
  - apply bump_some in H. destruct H as [m [H ->]].
    exists (acc ++ [c]), 1%nat, m. split; [reflexivity | exact H].
Qed.

Lemma match_here_occurs l p :
  In (Lit l) p ->
  forall cap s r, match_here p cap s = Some r -> occurs l s = true.
Proof.
  induction p as [| i p IH]; intros Hin cap s r H; [contradiction |].
  destruct Hin as [-> | Hin].
  - simpl in H. destruct (strip_prefix l s) as [s' |] eqn:E; [ | discriminate ].
    apply (occurs_here l s s' E).
  - destruct r as [g n]. destruct i as [l' | k [|] | k]; simpl in H.
    + destruct (strip_prefix l' s) as [s' |] eqn:E; [ | discriminate ].
      apply bump_some in H. destruct H as [m [H _]].
      apply strip_prefix_skipn in E. subst s'.
      apply occurs_skipn with (length l'). apply (IH Hin cap _ _ H).
    + apply greedy_loop_at in H. destruct H as [j [m [_ H]]].
      apply occurs_skipn with j. apply (IH Hin cap _ _ H).
    + apply lazy_loop_at in H. destruct H as [j [m [_ H]]].
      apply occurs_skipn with j. apply (IH Hin cap _ _ H).
    + apply plus_loop_at in H. destruct H as [acc' [j [m [_ H]]]].
      apply occurs_skipn with j. apply (IH Hin acc' _ _ H).
Qed.

Lemma scan_without_literal l p :
  In (Lit l) p ->
  forall s k, occurs l s = false -> scan p k s = [].
Proof.
  intros Hin. induction s as [| c s IH]; intros k H; [reflexivity |].
  assert (Hs : occurs l s = false).
  { destruct (occurs l s) eqn:E; [ | reflexivity ].
    rewrite (occurs_tail l c s E) in H. discriminate. }
  simpl. destruct k as [| k]; [ | apply IH; exact Hs ].
  destruct (match_here p [] (c :: s)) as [[g n] |] eqn:E.
  - apply (match_here_occurs l p Hin) in E. rewrite E in H. discriminate.
  - apply IH. exact Hs.
Qed.

Lemma regex_starts_with_marker p :
  In p all_regexes -> In (Lit combat_marker) p.
Proof.
  intros Hp. unfold all_regexes in Hp. simpl in Hp.
  repeat (destruct Hp as [<- | Hp]; [left; reflexivity |]).
  contradiction.
Qed.

(** X2: a text in which "(combat) <" occurs nowhere gives the all-zero
    tuple: lines of other kinds (notify, info, question) count for
    nothing, whatever numbers and markup they hold. *)
Theorem readLog_without_combat_marker_is_zero (logData : text) :
  occurs combat_marker logData = false ->
  BaseLogReader_readLog logData = Ok zero_totals.
Proof.
  intros H.
  assert (E : forall p, In p all_regexes -> extractValues p logData = Ok 0).
  { intros p Hp. unfold extractValues, findall.
    rewrite (scan_without_literal combat_marker p
               (regex_starts_with_marker p Hp) logData 0%nat H).
    reflexivity. }
  unfold BaseLogReader_readLog.
  rewrite !E by in_regexes. reflexivity.
Qed.

Lemma readLog_without_combat_marker_is_zero_witness :
  occurs combat_marker Sample.notify = false /\
  BaseLogReader_readLog Sample.notify = Ok zero_totals.
Proof.
  assert (H : occurs combat_marker Sample.notify = false)
    by (vm_compute; reflexivity).
  split; [exact H |].
  apply (readLog_without_combat_marker_is_zero _ H).
Defined.

(** ** Whole lines in any order *)

Lemma totals_add_comm x y : totals_add x y = totals_add y x.
Proof.
  destruct x as [[[[[[[a1 a2] a3] a4] a5] a6] a7] a8].
  destruct y as [[[[[[[b1 b2] b3] b4] b5] b6] b7] b8].
  unfold totals_add. apply f_equal2; [ | lia ].
  repeat match goal with |- (_, _) = (_, _) => apply f_equal2 end; lia.
Qed.

(** X3: two blocks of whole lines give the same totals in either
    order: for a and b that are empty or end with a newline,
    [readLog (a ++ b)] is [readLog (b ++ a)]. *)
Theorem readLog_order_of_blocks (a b : text) :
  last a nl = nl -> last b nl = nl ->
  BaseLogReader_readLog (a ++ b) = BaseLogReader_readLog (b ++ a).
Proof.
  intros Ha Hb.
  assert (Hab : line_boundary a b) by (left; exact Ha).
  assert (Hba : line_boundary b a) by (left; exact Hb).
  assert (H1 : exists ta tb,
             BaseLogReader_readLog a = Ok ta /\
             BaseLogReader_readLog b = Ok tb /\
             BaseLogReader_readLog (a ++ b) = Ok (totals_add ta tb))
    by sum_by_pattern a b Hab.
  assert (H2 : exists tb ta,
             BaseLogReader_readLog b = Ok tb /\
             BaseLogReader_readLog a = Ok ta /\
             BaseLogReader_readLog (b ++ a) = Ok (totals_add tb ta))
    by sum_by_pattern b a Hba.
  destruct H1 as [ta [tb [Ea [Eb ->]]]].
  destruct H2 as [tb' [ta' [Eb' [Ea' ->]]]].
  rewrite Ea in Ea'. rewrite Eb in Eb'.
  injection Ea' as <-. injection Eb' as <-.
  rewrite totals_add_comm. reflexivity.
Qed.

Lemma readLog_order_of_blocks_witness :
  BaseLogReader_readLog (Sample.hit ++ Sample.drained "10")
  = BaseLogReader_readLog (Sample.drained "10" ++ Sample.hit).
Proof.
  apply (readLog_order_of_blocks Sample.hit (Sample.drained "10"));
    reflexivity.
Defined.

Local Close Scope Z_scope.

(** ** One value for each line *)

Lemma occurs_false_tail l c s :
  occurs l (c :: s) = false -> occurs l s = false.
Proof.
  intros H. destruct (occurs l s) eqn:E; [ | reflexivity ].
  rewrite (occurs_tail l c s E) in H. discriminate.
Qed.

Lemma occurs_false_skipn l j :
  forall s, occurs l s = false -> occurs l (skipn j s) = false.
Proof.
  intros s H. destruct (occurs l (skipn j s)) eqn:E; [ | reflexivity ].
  rewrite (occurs_skipn l j s E) in H. discriminate.
Qed.

Lemma no_nl_tail c s : no_nl (c :: s) -> Ascii.eqb c nl = false /\ no_nl s.
Proof.
  intros H. split.
  - destruct (Ascii.eqb c nl) eqn:E; [ | reflexivity ].
    apply Ascii.eqb_eq in E. exfalso. apply H. left. exact E.
  - intros Hin. apply H. right. exact Hin.
Qed.

Lemma no_nl_skipn j : forall s, no_nl s -> no_nl (skipn j s).
Proof.
  induction j as [| j IH]; intros s H; [exact H |].
  destruct s as [| c s]; [exact H |].
  apply IH. apply (no_nl_tail c s H).
Qed.

Section LastLiteral.

Variable tail : text.
Variable cap : text.
Variable cont : text -> option (text * nat).
Hypothesis tail_nonempty : tail <> [].
Hypothesis cont_literal :
  forall s, cont s = match strip_prefix tail s with
                     | Some _ => Some (cap, length tail)
                     | None => None
                     end.

Lemma cont_none_iff s : cont s = None <-> strip_prefix tail s = None.
Proof.
  rewrite cont_literal. destruct (strip_prefix tail s); split; intros H;
    try reflexivity; discriminate.
Qed.

(** When [.*] finds no place for the literal, the literal is nowhere
    in the line. *)
Lemma greedy_none_absent s :
  no_nl s -> greedy_loop Dot cont s = None -> occurs tail s = false.
Proof.
  induction s as [| c s IH]; intros Hs H; simpl in H.
  - apply cont_none_iff in H. simpl. rewrite H. reflexivity.
  - destruct (no_nl_tail c s Hs) as [Hc Hs'].
    rewrite Hc in H. simpl negb in H. cbv iota in H.
    destruct (greedy_loop Dot cont s) as [[g m] |] eqn:E; [discriminate |].
    apply cont_none_iff in H. cbn [occurs]. rewrite H.
    apply IH; [exact Hs' | reflexivity].
Qed.

(** [.*] stops at the last place of the literal in the line. *)
Lemma greedy_last s :
  no_nl s ->
  forall g n, greedy_loop Dot cont s = Some (g, n) ->
    occurs tail (skipn n s) = false.
Proof.
  assert (Hlen : length tail <> 0).
  { intros H0. apply tail_nonempty. apply length_zero_iff_nil. exact H0. }
  induction s as [| c s IH]; intros Hs g n H; simpl in H.
  - rewrite cont_literal in H.
    destruct (strip_prefix tail []) as [r |] eqn:E0; [ | discriminate ].
    apply strip_prefix_length in E0. simpl in E0. lia.
  - destruct (no_nl_tail c s Hs) as [Hc Hs'].
    rewrite Hc in H. simpl negb in H. cbv iota in H.
    destruct (greedy_loop Dot cont s) as [[g' m] |] eqn:E.
    + simpl in H. injection H as <- <-. simpl. apply (IH Hs' g' m eq_refl).
    + apply (greedy_none_absent s Hs') in E.
      rewrite cont_literal in H.
      destruct (strip_prefix tail (c :: s)) as [r |]; [ | discriminate ].
      injection H as <- <-.
      destruct (length tail) as [| k]; [contradiction |].
      simpl. apply occurs_false_skipn. exact E.
Qed.

End LastLiteral.

Lemma skipn_skipn_add {A} (m j : nat) (s : list A) :
  skipn m (skipn j s) = skipn (j + m) s.
Proof. rewrite skipn_skipn. f_equal. lia. Qed.

Lemma match_here_last tail pre :
  tail <> [] ->
  forall cap s g n, no_nl s ->
    match_here (pre ++ [Star Dot true; Lit tail]) cap s = Some (g, n) ->
    occurs tail (skipn n s) = false.
Proof.
  intros Ht. induction pre as [| i pre IH]; intros cap s g n Hs H.
  - apply (greedy_last tail cap (match_here [Lit tail] cap) Ht) with g;
      [ | exact Hs | exact H ].
    intros u. simpl. destruct (strip_prefix tail u); [ | reflexivity ].
    simpl. rewrite Nat.add_0_r. reflexivity.
  - destruct i as [l | k [|] | k]; simpl in H.
    + destruct (strip_prefix l s) as [s' |] eqn:E; [ | discriminate ].
      apply bump_some in H. destruct H as [m [H ->]].
      apply strip_prefix_skipn in E. subst s'.
      rewrite <- skipn_skipn_add.
      apply (IH cap _ g m (no_nl_skipn _ s Hs) H).
    + apply greedy_loop_at in H. destruct H as [j [m [-> H]]].
      rewrite <- skipn_skipn_add.
      apply (IH cap _ g m (no_nl_skipn _ s Hs) H).
    + apply lazy_loop_at in H. destruct H as [j [m [-> H]]].
      rewrite <- skipn_skipn_add.
      apply (IH cap _ g m (no_nl_skipn _ s Hs) H).
    + apply plus_loop_at in H. destruct H as [acc' [j [m [-> H]]]].
      rewrite <- skipn_skipn_add.
      apply (IH acc' _ g m (no_nl_skipn _ s Hs) H).
Qed.

Lemma ends_greedy_shape p :
  ends_greedy p = true ->
  exists pre tail, tail <> [] /\ p = pre ++ [Star Dot true; Lit tail].
Proof.
  unfold ends_greedy. intros H.
  destruct (rev p) as [| i1 q] eqn:E; [discriminate |].
  destruct i1 as [l | k1 g1 | k1]; try discriminate.
  destruct l as [| a l]; [discriminate |].
  destruct q as [| i2 r]; [discriminate |].
  destruct i2 as [l2 | k2 g2 | k2]; try discriminate.
  destruct k2; [ | discriminate ]. destruct g2; [ | discriminate ].
  exists (rev r), (a :: l). split; [discriminate |].
  rewrite <- (rev_involutive p), E. simpl. rewrite <- app_assoc. reflexivity.
Qed.

Lemma scan_skip p :
  forall s k, scan p k s = scan p 0 (skipn k s).
Proof.
  induction s as [| c s IH]; intros k.
  - destruct k; reflexivity.
  - destruct k as [| k]; [reflexivity |]. simpl scan at 1. apply IH.
Qed.

Lemma scan_line_once p :
  ends_greedy p = true ->
  forall s k, no_nl s -> length (scan p k s) <= 1.
Proof.
  intros Hp. destruct (ends_greedy_shape p Hp) as [pre [tail [Ht ->]]].
  set (p := pre ++ [Star Dot true; Lit tail]).
  assert (Hin : In (Lit tail) p).
  { apply in_or_app. right. right. left. reflexivity. }
  induction s as [| c s IH]; intros k Hs; simpl; [lia |].
  destruct (no_nl_tail c s Hs) as [_ Hs'].
  destruct k as [| k]; [ | apply IH; exact Hs' ].
  destruct (match_here p [] (c :: s)) as [[g n] |] eqn:E;
    [ | apply IH; exact Hs' ].
  apply (match_here_last tail pre Ht [] (c :: s) g n Hs) in E.
  rewrite scan_skip.
  rewrite (scan_without_literal tail p Hin); [simpl; lia |].
  destruct n as [| n]; simpl in E |- *.
  - apply occurs_false_skipn with (j := 0). apply (occurs_false_tail _ c).
    exact E.
  - exact E.
Qed.

Lemma all_regexes_end_greedy : forallb ends_greedy all_regexes = true.
Proof. reflexivity. Qed.

(** X4: each pattern of the class gives at most one value for a line:
    for a text [l] without newline [findall] returns at most one
    match, the same with the newline that closes the line; a second
    hit written on the same line is not counted. *)
Theorem one_value_for_each_line (p : regex) (l : text) :
  In p all_regexes -> no_nl l ->
  length (findall p l) <= 1 /\ findall p (l ++ [nl]) = findall p l.
Proof.
  intros Hp Hl. split.
  - apply scan_line_once; [ | exact Hl ].
    pose proof all_regexes_end_greedy as A. rewrite forallb_forall in A.
    apply A. exact Hp.
  - rewrite findall_app; [ | apply regex_nl_free; exact Hp | right; reflexivity ].
    unfold findall at 2.
    rewrite (scan_without_literal combat_marker p
               (regex_starts_with_marker p Hp) [nl] 0 eq_refl).
    apply app_nil_r.
Qed.

Lemma one_value_for_each_line_witness :
  no_nl Sample.two_hits /\
  findall damageOutRegex Sample.two_hits = [T "125"] /\
  length (findall damageOutRegex Sample.two_hits) <= 1.
Proof.
  assert (Hl : no_nl Sample.two_hits).
  { unfold no_nl. intros H. vm_compute in H.
    repeat (destruct H as [H | H]; [discriminate H |]). exact H. }
  split; [exact Hl |]. split; [vm_compute; reflexivity |].
  apply (one_value_for_each_line damageOutRegex Sample.two_hits);
    [left; reflexivity | exact Hl].
Defined.

(* ================================================================== *)
(** * Further properties of the session readers *)

(** ** Successive reads *)

Lemma read_within fs f c :
  fs (name f) = Some c -> pos f <= length c ->
  read fs f = (skipn (pos f) c, {| name := name f; pos := length c |}).
Proof.
  intros Hfile Hp. unfold read, remaining, advance, contents.
  rewrite Hfile. rewrite length_skipn. f_equal. f_equal. lia.
Qed.

(** X5: two successive reads of a file that only grows cut its text
    without gap or overlap: with the cursor inside the text [c] and
    [a] appended between the reads, the second read returns [a], the
    two deltas together are what one read of the grown file returns,
    and the cursor ends at the same place. *)
Theorem reads_partition_the_file (fs fs' : filesystem) (f : TextIO)
  (c a : text) :
  fs (name f) = Some c ->
  fs' (name f) = Some (c ++ a) ->
  pos f <= length c ->
  fst (read fs' (snd (read fs f))) = a /\
  fst (read fs f) ++ fst (read fs' (snd (read fs f))) = fst (read fs' f) /\
  snd (read fs' (snd (read fs f))) = snd (read fs' f).
Proof.
  intros Hfile Hfile' Hp.
  rewrite (read_within fs f c Hfile Hp). cbn [fst snd].
  assert (R1 : read fs' {| name := name f; pos := length c |}
               = (a, {| name := name f; pos := length (c ++ a) |})).
  { rewrite (read_within fs' _ (c ++ a)); [ | exact Hfile' | simpl ].
    - simpl. rewrite skipn_app, Nat.sub_diag, skipn_all. reflexivity.
    - rewrite length_app. lia. }
  assert (R2 : read fs' f
               = (skipn (pos f) c ++ a,
                  {| name := name f; pos := length (c ++ a) |})).
  { rewrite (read_within fs' f (c ++ a) Hfile');
      [ | rewrite length_app; lia ].
    rewrite skipn_app.
    replace (pos f - length c) with 0 by lia. reflexivity. }
  rewrite R1, R2. cbn [fst snd]. repeat split; reflexivity.
Qed.

Lemma reads_partition_the_file_witness :
  let f := {| name := Sample.log_txt; pos := 3 |} in
  let fs := Sample.one_file Sample.log_txt Sample.session in
  let fs' := Sample.one_file Sample.log_txt
               (Sample.session ++ Sample.incoming) in
  fst (read fs' (snd (read fs f))) = Sample.incoming.
Proof.
  intros f fs fs'.
  apply (reads_partition_the_file fs fs' f Sample.session Sample.incoming);
    [reflexivity | reflexivity | vm_compute; lia].
Defined.

(** X6: polling twice gives the totals of polling once: when the text
    read by the first [readLog] ends between two lines (or the text
    appended afterwards starts a line), the tuples of the two
    [readLog] calls add up to the tuple one [readLog] returns on the
    grown file, and both ways leave the same reader. *)
Theorem readLog_twice_adds_up (fs fs' : filesystem) (self : LogReader)
  (c a : text) :
  fs (name (log self)) = Some c ->
  fs' (name (log self)) = Some (c ++ a) ->
  pos (log self) <= length c ->
  line_boundary (skipn (pos (log self)) c) a ->
  exists t1 t2,
    fst (LogReader_readLog fs self) = Ok t1 /\
    fst (LogReader_readLog fs' (snd (LogReader_readLog fs self))) = Ok t2 /\
    LogReader_readLog fs' self =
    (Ok (totals_add t1 t2),
     snd (LogReader_readLog fs' (snd (LogReader_readLog fs self)))).
Proof.
  intros Hfile Hfile' Hp Hcut.
  unfold LogReader_readLog.
  rewrite (read_within fs (log self) c Hfile Hp). cbn [fst snd log logLine].
  assert (R1 : read fs' {| name := name (log self); pos := length c |}
               = (a, {| name := name (log self);
                        pos := length (c ++ a) |})).
  { rewrite (read_within fs' _ (c ++ a)); [ | exact Hfile' | simpl ].
    - simpl. rewrite skipn_app, Nat.sub_diag, skipn_all. reflexivity.
    - rewrite length_app. lia. }
  assert (R2 : read fs' (log self)
               = (skipn (pos (log self)) c ++ a,
                  {| name := name (log self); pos := length (c ++ a) |})).
  { rewrite (read_within fs' (log self) (c ++ a) Hfile');
      [ | rewrite length_app; lia ].
    rewrite skipn_app.
    replace (pos (log self) - length c) with 0 by lia. reflexivity. }
  rewrite R1, R2. cbn [fst snd].
  set (d := skipn (pos (log self)) c) in *. clearbody d.
  assert (H : exists ta tb,
             BaseLogReader_readLog d = Ok ta /\
             BaseLogReader_readLog a = Ok tb /\
             BaseLogReader_readLog (d ++ a) = Ok (totals_add ta tb))
    by sum_by_pattern d a Hcut.
  destruct H as [ta [tb [Ea [Eb Eab]]]].
  exists ta, tb. rewrite Ea, Eb, Eab. repeat split; reflexivity.
Qed.

Lemma readLog_twice_adds_up_witness :
  let self := {| log := {| name := Sample.log_txt;
                           pos := length (Sample.header "Alice") |};
                 logLine := [] |} in
  let fs := Sample.one_file Sample.log_txt Sample.session in
  let fs' := Sample.one_file Sample.log_txt
               (Sample.session ++ Sample.incoming) in
  LogReader_readLog fs' self
  = (Ok (125, 40, 0, 0, 0, 0, 0, 0)%Z,
     {| log := {| name := Sample.log_txt;
                  pos := length (Sample.session ++ Sample.incoming) |};
        logLine := [] |}).
Proof.
  intros self fs fs'.
  destruct (readLog_twice_adds_up fs fs' self Sample.session Sample.incoming)
    as [t1 [t2 [E1 [E2 E]]]];
    [reflexivity | reflexivity | vm_compute; lia
    | left; vm_compute; reflexivity |].
  vm_compute. reflexivity.
Defined.

(** ** When the constructor succeeds *)

Lemma text_eqb_false a b : text_eqb a b = false <-> a <> b.
Proof.
  unfold text_eqb. destruct (list_eq_dec ascii_dec a b); split; intros H;
    try reflexivity; try assumption; try discriminate; contradiction.
Qed.

(** X7: [LogReader(logPath)] on a file returns a reader exactly when
    the third line names a listener and the sixth line is not the
    separator; the reader then keeps the sixth line as [logLine]; and
    on a path without file it raises [FileNotFoundError]. *)
Theorem LogReader_init_succeeds_iff (fs : filesystem) (logPath : path) :
  (forall c, fs logPath = Some c ->
     ((exists self, LogReader_init fs logPath = Ok self) <->
      (exists character,
          search_after Listener (line 2 c) = Some character) /\
      line 5 c <> separator) /\
     (forall self, LogReader_init fs logPath = Ok self ->
        logLine self = line 5 c)) /\
  (fs logPath = None -> LogReader_init fs logPath = Raise FileNotFoundError).
Proof.
  split.
  - intros c Hfile. rewrite (LogReader_init_lines fs logPath c Hfile).
    destruct (search_after Listener (line 2 c)) as [ch |].
    + destruct (text_eqb (line 5 c) separator) eqn:E.
      * apply text_eqb_eq in E. split.
        -- split.
           ++ intros [self H].
              destruct (search_after Listener (line 7 c)); discriminate.
           ++ intros [_ H]. contradiction.
        -- intros self H.
           destruct (search_after Listener (line 7 c)); discriminate.
      * apply text_eqb_false in E. split.
        -- split.
           ++ intros _. split; [exists ch; reflexivity | exact E].
           ++ intros _. eexists. reflexivity.
        -- intros self H. injection H as <-. reflexivity.
    + split.
      * split.
        -- intros [self H]. discriminate.
        -- intros [[ch H] _]. discriminate.
      * intros self H. discriminate.
  - intros Hfile. unfold LogReader_init, open_. rewrite Hfile. reflexivity.
Qed.

Lemma LogReader_init_succeeds_iff_witness :
  LogReader_init (fun _ => None) Sample.log_txt = Raise FileNotFoundError /\
  exists self,
    LogReader_init (Sample.one_file Sample.log_txt Sample.session)
      Sample.log_txt = Ok self.
Proof.
  split.
  - apply (proj2 (LogReader_init_succeeds_iff (fun _ => None) Sample.log_txt)).
    reflexivity.
  - apply (proj1 (proj1 (LogReader_init_succeeds_iff
                           (Sample.one_file Sample.log_txt Sample.session)
                           Sample.log_txt)
                    Sample.session eq_refl)).
    split; [eexists; vm_compute; reflexivity | vm_compute; discriminate].
Defined.

(** ** The header of a log *)

Lemma take_line_app l r : no_nl l -> take_line (l ++ nl :: r) = l ++ [nl].
Proof.
  induction l as [| c l IH]; intros H; simpl.
  - reflexivity.
  - destruct (no_nl_tail c l H) as [Hc Hl]. rewrite Hc, (IH Hl). reflexivity.
Qed.

Lemma skipn_line l r : skipn (length (l ++ [nl])) (l ++ nl :: r) = r.
Proof.
  induction l as [| c l IH]; simpl; [reflexivity | exact IH].
Qed.

Lemma In_skipn {A} (x : A) k ls : In x (skipn k ls) -> In x ls.
Proof.
  intros H. rewrite <- (firstn_skipn k ls). apply in_or_app. right. exact H.
Qed.

Lemma drop_lines_unlines ls body :
  Forall no_nl ls ->
  forall k, k <= length ls ->
    drop_lines k (unlines ls ++ body) = unlines (skipn k ls) ++ body.
Proof.
  intros Hls. induction k as [| k IH]; intros Hk; [reflexivity |].
  cbn [drop_lines]. cbv zeta. rewrite IH by lia.
  destruct (skipn k ls) as [| l rest] eqn:E.
  - apply (f_equal (@length text)) in E. rewrite length_skipn in E.
    simpl in E. lia.
  - assert (Hl : no_nl l).
    { rewrite Forall_forall in Hls. apply Hls.
      apply (In_skipn l k ls). rewrite E. left. reflexivity. }
    assert (E' : skipn (S k) ls = rest).
    { replace (S k) with (1 + k) by lia. rewrite <- skipn_skipn, E.
      reflexivity. }
    rewrite E'. simpl unlines. rewrite <- app_assoc. simpl.
    rewrite (take_line_app l _ Hl), skipn_line. reflexivity.
Qed.

Lemma line_unlines ls body k l :
  Forall no_nl ls -> nth_error ls k = Some l ->
  line k (unlines ls ++ body) = l ++ [nl].
Proof.
  intros Hls Hk. unfold line.
  assert (Hlt : k < length ls) by (apply nth_error_Some; congruence).
  rewrite (drop_lines_unlines ls body Hls k) by lia.
  assert (E : skipn k ls = l :: skipn (S k) ls).
  { clear Hls Hlt. revert k Hk. induction ls as [| x ls IH]; intros k Hk.
    - destruct k; discriminate.
    - destruct k as [| k]; simpl in *.
      + injection Hk as ->. reflexivity.
      + apply IH. exact Hk. }
  rewrite E. simpl unlines. rewrite <- app_assoc. simpl.
  apply take_line_app.
  rewrite Forall_forall in Hls. apply Hls. apply (nth_error_In _ _ Hk).
Qed.

Lemma line_after_unlines ls body :
  Forall no_nl ls ->
  line (length ls) (unlines ls ++ body) = take_line body.
Proof.
  intros Hls. unfold line.
  rewrite (drop_lines_unlines ls body Hls (length ls)) by lia.
  rewrite skipn_all. reflexivity.
Qed.

Lemma until_nl_line l r : no_nl l -> until_nl (l ++ nl :: r) = l.
Proof.
  induction l as [| c l IH]; intros H; simpl.
  - reflexivity.
  - destruct (no_nl_tail c l H) as [Hc Hl]. rewrite Hc, (IH Hl). reflexivity.
Qed.

Lemma search_after_Listener character :
  no_nl character ->
  search_after Listener (T "  Listener: " ++ character ++ [nl])
  = Some character.
Proof.
  intros H. simpl. rewrite (until_nl_line character [] H). reflexivity.
Qed.

Lemma no_nl_app a b : no_nl a -> no_nl b -> no_nl (a ++ b).
Proof.
  intros Ha Hb Hin. apply in_app_or in Hin. destruct Hin; contradiction.
Qed.

Ltac no_nl_text :=
  let H := fresh in
  unfold no_nl; intros H; vm_compute in H;
  repeat (destruct H as [H | H]; [discriminate H |]); exact H.

Lemma log_header_lines character started :
  no_nl character -> no_nl started ->
  Forall no_nl [dashes; T "  Gamelog"; T "  Listener: " ++ character;
                T "  Session Started: " ++ started; dashes].
Proof.
  intros Hc Hs.
  repeat constructor; try no_nl_text;
    (apply no_nl_app; [no_nl_text | assumption]).
Qed.

(** X8: the name a header is written with is the name read back: for a
    file that starts with the five header lines of [character] (a name
    without newline) and goes on with a text whose first line is not
    the separator, [LogReader] succeeds with the cursor at the end of
    the file, and [addLog] on a detector that does not know
    [character] yet appends that very name, the new reader and a radio
    button whose value is the position of the name. *)
Theorem header_names_the_character (fs : filesystem) (logPath : path)
  (character started body : text) (self : CharacterDetector) :
  no_nl character -> no_nl started ->
  take_line body <> separator ->
  fs logPath = Some (log_header character started ++ body) ->
  ~ In character (menuEntries self) ->
  let newLogReader :=
    {| log := {| name := logPath;
                 pos := length (log_header character started ++ body) |};
       logLine := take_line body |} in
  LogReader_init fs logPath = Ok newLogReader /\
  addLog self fs logPath =
  (Ok tt,
   {| menuEntries := menuEntries self ++ [character];
      logReaders := logReaders self ++ [newLogReader];
      selectedIndex := selectedIndex self;
      playbackLogReader := playbackLogReader self;
      characterMenu :=
        characterMenu self ++
        [(character, Z.of_nat (length (menuEntries self)))] |}).
Proof.
  intros Hc Hs Hbody Hfile Hnew newLogReader.
  pose proof (log_header_lines character started Hc Hs) as Hls.
  set (c := log_header character started ++ body) in *.
  assert (L2 : line 2 c = T "  Listener: " ++ character ++ [nl]).
  { unfold c, log_header.
    rewrite (app_assoc (T "  Listener: ") character [nl]).
    apply (line_unlines _ body 2 _ Hls). reflexivity. }
  assert (L5 : line 5 c = take_line body).
  { unfold c, log_header. apply (line_after_unlines _ body Hls). }
  assert (Hinit : LogReader_init fs logPath = Ok newLogReader).
  { rewrite (LogReader_init_lines fs logPath c Hfile), L2.
    rewrite (search_after_Listener character Hc), L5.
    apply text_eqb_false in Hbody. rewrite Hbody. reflexivity. }
  split; [exact Hinit |].
  rewrite (addLog_lines self fs logPath c Hfile), L2.
  rewrite (search_after_Listener character Hc).
  assert (Hfind : find_entry character (menuEntries self) 0 = None).
  { destruct (find_entry character (menuEntries self) 0) as [i |] eqn:E;
      [ | reflexivity ].
    apply find_entry_nth in E. destruct E as [_ E].
    apply nth_error_In in E. contradiction. }
  rewrite Hfind, Hinit. reflexivity.
Qed.

Lemma header_names_the_character_witness :
  let fs := Sample.one_file Sample.log_txt
              (log_header (T "Alice") (T "2017.03.05 12:00:00")
               ++ Sample.hit) in
  menuEntries (snd (addLog fresh fs Sample.log_txt)) = [T "Alice"].
Proof.
  intros fs.
  destruct (header_names_the_character fs Sample.log_txt (T "Alice")
              (T "2017.03.05 12:00:00") Sample.hit fresh) as [_ H].
  - no_nl_text.
  - no_nl_text.
  - vm_compute. discriminate.
  - reflexivity.
  - intros [].
  - rewrite H. reflexivity.
Defined.

(* ================================================================== *)
(** * Further properties of the character registry *)

Lemma store_store {A} (l : list A) :
  forall i r r', store (store l i r) i r' = store l i r'.
Proof.
  induction l as [| a l IH]; intros i r r'; [reflexivity |].
  destruct i; simpl; [reflexivity |]. rewrite IH. reflexivity.
Qed.

Lemma store_app_end {A} (l : list A) x r :
  store (l ++ [x]) (length l) r = l ++ [r].
Proof.
  induction l as [| a l IH]; simpl; [reflexivity |]. rewrite IH. reflexivity.
Qed.

Lemma find_entry_None character entries :
  forall k, find_entry character entries k = None ->
    ~ In character entries.
Proof.
  induction entries as [| e entries IH]; intros k H Hin; [contradiction |].
  simpl in H. destruct (text_eqb character e) eqn:E; [discriminate |].
  destruct Hin as [Hin | Hin].
  - subst e. rewrite text_eqb_refl in E. discriminate.
  - apply (IH _ H Hin).
Qed.

Lemma find_entry_app_new character entries :
  forall k, find_entry character entries k = None ->
    find_entry character (entries ++ [character]) k
    = Some (k + length entries).
Proof.
  induction entries as [| e entries IH]; intros k H; simpl.
  - rewrite text_eqb_refl. f_equal. lia.
  - simpl in H. destruct (text_eqb character e); [discriminate |].
    rewrite (IH _ H). f_equal. lia.
Qed.

Lemma find_entry_lt character entries i :
  find_entry character entries 0 = Some i -> i < length entries.
Proof.
  intros H. apply find_entry_nth in H. destruct H as [_ H].
  rewrite Nat.sub_0_r in H. apply nth_error_Some. congruence.
Qed.

Lemma menu_of_app names character :
  forall k, menu_of (names ++ [character]) k
            = menu_of names k ++ [(character, Z.of_nat (k + length names))].
Proof.
  induction names as [| n names IH]; intros k; cbn [menu_of app length].
  - rewrite Nat.add_0_r. reflexivity.
  - rewrite IH. replace (k + S (length names)) with (S k + length names) by lia.
    reflexivity.
Qed.

(** What one call of [addLog] can do to the registry. *)
Lemma addLog_effect self fs logPath :
  let self' := snd (addLog self fs logPath) in
  (menuEntries self' = menuEntries self /\
   characterMenu self' = characterMenu self /\
   length (logReaders self') = length (logReaders self) /\
   selectedIndex self' = selectedIndex self /\
   playbackLogReader self' = playbackLogReader self) \/
  (exists character newLogReader,
      ~ In character (menuEntries self) /\
      self' = {| menuEntries := menuEntries self ++ [character];
                 logReaders := logReaders self ++ [newLogReader];
                 selectedIndex := selectedIndex self;
                 playbackLogReader := playbackLogReader self;
                 characterMenu :=
                   characterMenu self ++
                   [(character, Z.of_nat (length (menuEntries self)))] |}).
Proof.
  cbv zeta. destruct (fs logPath) as [c |] eqn:Hfile.
  2:{ left. unfold addLog, open_. rewrite Hfile. repeat split. }
  rewrite (addLog_lines self fs logPath c Hfile).
  destruct (search_after Listener (line 2 c)) as [character |];
    [ | left; repeat split ].
  destruct (find_entry character (menuEntries self) 0) as [i |] eqn:Hfind.
  - left. destruct (LogReader_init fs logPath) as [r | e].
    + unfold setitem. destruct (i <? length (logReaders self));
        [ | repeat split ].
      cbn [snd set_logReaders menuEntries characterMenu logReaders
           selectedIndex playbackLogReader].
      rewrite length_store. repeat split.
    + destruct e; repeat split.
  - destruct (LogReader_init fs logPath) as [r | e].
    + right. exists character, r. split; [ | reflexivity ].
      apply (find_entry_None _ _ _ Hfind).
    + left. destruct e; repeat split.
Qed.

Lemma addLog_registry_ok self fs logPath :
  registry_ok self -> registry_ok (snd (addLog self fs logPath)).
Proof.
  intros [Hnd [Hmenu Hlen]].
  destruct (addLog_effect self fs logPath)
    as [[E1 [E2 [E3 _]]] | [character [r [Hnew E]]]].
  - unfold registry_ok. rewrite E1, E2, E3. repeat split; assumption.
  - rewrite E. unfold registry_ok. simpl. repeat split.
    + apply NoDup_app; [exact Hnd | repeat constructor; intros [] |].
      intros a Ha [<- | []]. contradiction.
    + rewrite menu_of_app, Hmenu. reflexivity.
    + rewrite !length_app, Hlen. reflexivity.
Qed.

Lemma registry_ok_same self self' :
  menuEntries self' = menuEntries self ->
  characterMenu self' = characterMenu self ->
  length (logReaders self') = length (logReaders self) ->
  registry_ok self -> registry_ok self'.
Proof.
  intros E1 E2 E3 [Hnd [Hmenu Hlen]]. unfold registry_ok.
  rewrite E1, E2, E3. repeat split; assumption.
Qed.

Lemma playbackLog_on_registry made self :
  let self' := snd (playbackLog_on made self) in
  menuEntries self' = menuEntries self /\
  characterMenu self' = characterMenu self /\
  logReaders self' = logReaders self /\
  selectedIndex self' = selectedIndex self.
Proof.
  cbv zeta. destruct made as [r | e]; [repeat split |].
  destruct e; repeat split.
Qed.

Lemma readLog_registry self fs :
  let self' := snd (readLog self fs) in
  menuEntries self' = menuEntries self /\
  characterMenu self' = characterMenu self /\
  length (logReaders self') = length (logReaders self) /\
  selectedIndex self' = selectedIndex self /\
  playbackLogReader self' = playbackLogReader self.
Proof.
  cbv zeta. unfold readLog.
  destruct (playbackLogReader self) as [pb |] eqn:E;
    [repeat split; exact E |].
  unfold readLog_live.
  destruct (0 <? length (menuEntries self)); [ | repeat split; exact E ].
  destruct (py_index _ _) as [j | e]; [ | repeat split; exact E ].
  destruct (getitem _ j) as [r | e]; [ | repeat split; exact E ].
  unfold LogReader_readLog. destruct (read fs (log r)) as [d f].
  cbn [snd set_logReaders menuEntries characterMenu logReaders
       selectedIndex playbackLogReader].
  rewrite length_store. repeat split. exact E.
Qed.

Lemma catchupLog_registry self fs :
  let self' := snd (catchupLog self fs) in
  menuEntries self' = menuEntries self /\
  characterMenu self' = characterMenu self /\
  length (logReaders self') = length (logReaders self) /\
  selectedIndex self' = selectedIndex self /\
  playbackLogReader self' = playbackLogReader self.
Proof.
  cbv zeta. unfold catchupLog.
  destruct (py_index _ _) as [j | e]; [ | destruct e; repeat split ].
  destruct (getitem _ j) as [r | e]; [ | destruct e; repeat split ].
  cbn [snd set_logReaders menuEntries characterMenu logReaders
       selectedIndex playbackLogReader].
  rewrite length_store. repeat split.
Qed.

Lemma scan_logs_registry_ok fs files :
  forall self, registry_ok self -> registry_ok (snd (scan_logs self fs files)).
Proof.
  induction files as [| filename files IH]; intros self H; [exact H |].
  simpl. pose proof (addLog_registry_ok self fs filename H) as H'.
  destruct (addLog self fs filename) as [[u | e] self']; simpl in H'.
  - apply IH. exact H'.
  - exact H'.
Qed.

Lemma registry_ok_fresh : registry_ok fresh.
Proof. repeat split. constructor. Qed.

Lemma CharacterDetector_init_registry_ok fs files self :
  CharacterDetector_init fs files = Ok self -> registry_ok self.
Proof.
  unfold CharacterDetector_init. destruct files as [files |].
  - pose proof (scan_logs_registry_ok fs files fresh registry_ok_fresh) as H.
    destruct (scan_logs fresh fs files) as [[u | e] self']; simpl in H.
    + intros E. injection E as <-. exact H.
    + destruct e; intros E; try discriminate. injection E as <-. exact H.
  - intros E. injection E as <-. apply registry_ok_fresh.
Qed.

(** X9: in every state a detector can be in, no character is named
    twice in [menuEntries], there is one reader for each name, and the
    radio buttons are the names in order, the button of a name
    carrying the position of the name. *)
Theorem registry_names_are_unique
  (strptime : text -> string -> option Z) (self : CharacterDetector) :
  reachable strptime self ->
  NoDup (menuEntries self) /\
  characterMenu self = menu_of (menuEntries self) 0 /\
  length (logReaders self) = length (menuEntries self).
Proof.
  induction 1 as [fs files self Hinit | self fs logPath _ IH
                  | self now fs logPath _ IH | self fs _ IH
                  | self fs label v _ IH Hin].
  - apply (CharacterDetector_init_registry_ok fs files self Hinit).
  - apply addLog_registry_ok. exact IH.
  - destruct (playbackLog_on_registry
                (PlaybackLogReader_init strptime now fs logPath) self)
      as [E1 [E2 [E3 _]]].
    apply (registry_ok_same self); try assumption.
    unfold playbackLog. rewrite E3. reflexivity.
  - destruct (readLog_registry self fs) as [E1 [E2 [E3 _]]].
    apply (registry_ok_same self); assumption.
  - destruct (catchupLog_registry (set_selectedIndex self v) fs)
      as [E1 [E2 [E3 _]]].
    apply (registry_ok_same self); assumption.
Qed.

Lemma registry_names_are_unique_witness :
  let fs := Sample.one_file Sample.log_txt Sample.session in
  let self := snd (addLog (snd (addLog fresh fs Sample.log_txt)) fs
                     Sample.log_txt) in
  menuEntries self = [T "Alice"] /\ NoDup (menuEntries self).
Proof.
  intros fs self. split; [vm_compute; reflexivity |].
  apply (registry_names_are_unique (fun _ _ => None) self).
  apply reach_addLog. apply reach_addLog.
  apply (reach_init _ fs None). reflexivity.
Defined.

(** X10: the registry only grows, and at its end: [addLog] leaves the
    names as they are or appends one name that was not there, and
    [playbackLog], [readLog], [catchupLog] and a click on a radio
    button leave the names, the menu and the number of readers
    unchanged. *)
Theorem registry_is_append_only
  (strptime : text -> string -> option Z) (self : CharacterDetector)
  (fs : filesystem) :
  (forall logPath,
      exists added,
        menuEntries (snd (addLog self fs logPath))
        = menuEntries self ++ added /\
        length added <= 1 /\
        (forall character, In character added ->
                           ~ In character (menuEntries self)) /\
        length (logReaders (snd (addLog self fs logPath)))
        = length (logReaders self) + length added) /\
  (forall now logPath,
      menuEntries (snd (playbackLog strptime now self fs logPath))
      = menuEntries self /\
      logReaders (snd (playbackLog strptime now self fs logPath))
      = logReaders self) /\
  (menuEntries (snd (readLog self fs)) = menuEntries self /\
   length (logReaders (snd (readLog self fs))) = length (logReaders self)) /\
  (menuEntries (snd (catchupLog self fs)) = menuEntries self /\
   length (logReaders (snd (catchupLog self fs)))
   = length (logReaders self)) /\
  (forall v,
      menuEntries (snd (select self fs v)) = menuEntries self /\
      length (logReaders (snd (select self fs v)))
      = length (logReaders self)).
Proof.
  split; [ | split; [ | split; [ | split ]]].
  - intros logPath.
    destruct (addLog_effect self fs logPath)
      as [[E1 [E2 [E3 _]]] | [character [r [Hnew E]]]].
    + exists []. rewrite E1, E3, app_nil_r. simpl.
      split; [reflexivity |]. split; [lia |].
      split; [intros ch [] | lia].
    + exists [character]. rewrite E. simpl. rewrite length_app. simpl.
      split; [reflexivity |]. split; [lia |].
      split; [ | reflexivity ].
      intros ch [<- | []]. exact Hnew.
  - intros now logPath. unfold playbackLog.
    destruct (playbackLog_on_registry
                (PlaybackLogReader_init strptime now fs logPath) self)
      as [E1 [_ [E3 _]]].
    split; assumption.
  - destruct (readLog_registry self fs) as [E1 [_ [E3 _]]].
    split; assumption.
  - destruct (catchupLog_registry self fs) as [E1 [_ [E3 _]]].
    split; assumption.
  - intros v.
    destruct (catchupLog_registry (set_selectedIndex self v) fs)
      as [E1 [_ [E3 _]]].
    split; assumption.
Qed.

(** ** Registering a file again *)

(** X11: [addLog] of the same file a second time, the file unchanged,
    leaves the detector as after the first time (with one reader for
    each name): a known character only gets an equal reader again. *)
Theorem addLog_twice_is_addLog_once (self : CharacterDetector)
  (fs : filesystem) (logPath : path) :
  length (logReaders self) = length (menuEntries self) ->
  addLog (snd (addLog self fs logPath)) fs logPath
  = (fst (addLog self fs logPath), snd (addLog self fs logPath)).
Proof.
  intros Hlen. destruct (fs logPath) as [c |] eqn:Hfile.
  2:{ unfold addLog, open_. rewrite Hfile. reflexivity. }
  rewrite !(addLog_lines _ fs logPath c Hfile).
  destruct (search_after Listener (line 2 c)) as [character |];
    [ | reflexivity ].
  destruct (find_entry character (menuEntries self) 0) as [i |] eqn:Hfind.
  - destruct (LogReader_init fs logPath) as [r | e] eqn:Hinit.
    + unfold setitem.
      destruct (i <? length (logReaders self)) eqn:Hlt.
      * cbn [fst snd set_logReaders menuEntries logReaders].
        rewrite Hfind, length_store, Hlt, store_store. reflexivity.
      * cbn [fst snd]. rewrite Hfind, Hlt. reflexivity.
    + destruct e; cbn [fst snd]; rewrite Hfind; reflexivity.
  - destruct (LogReader_init fs logPath) as [r | e] eqn:Hinit.
    + cbn [fst snd menuEntries logReaders].
      rewrite (find_entry_app_new _ _ _ Hfind). cbn [Nat.add].
      unfold setitem. rewrite length_app, <- Hlen. cbn [length].
      assert (Hlt : (length (logReaders self)
                     <? length (logReaders self) + 1) = true)
        by (apply Nat.ltb_lt; lia).
      rewrite Hlt, store_app_end. reflexivity.
    + destruct e; cbn [fst snd]; rewrite Hfind; reflexivity.
Qed.

Lemma addLog_twice_is_addLog_once_witness :
  let fs := Sample.one_file Sample.log_txt Sample.session in
  snd (addLog (snd (addLog fresh fs Sample.log_txt)) fs Sample.log_txt)
  = snd (addLog fresh fs Sample.log_txt).
Proof.
  intros fs.
  rewrite (addLog_twice_is_addLog_once fresh fs Sample.log_txt eq_refl).
  reflexivity.
Defined.

(** ** What [addLog] can raise *)

Lemma addLog_raise_cases (self : CharacterDetector) (fs : filesystem)
  (logPath : path) (e : exn) :
  length (logReaders self) = length (menuEntries self) ->
  fst (addLog self fs logPath) = Raise e ->
  snd (addLog self fs logPath) = self /\
  ((e = FileNotFoundError /\ fs logPath = None) \/
   (e = AttributeError /\
    exists c character,
      fs logPath = Some c /\
      search_after Listener (line 2 c) = Some character /\
      line 5 c = separator /\
      search_after Listener (line 7 c) = None)).
Proof.
  intros Hlen. destruct (fs logPath) as [c |] eqn:Hfile.
  2:{ unfold addLog, open_. rewrite Hfile. cbn [fst snd].
      intros H. injection H as <-. split; [reflexivity |].
      left. split; reflexivity. }
  rewrite (addLog_lines self fs logPath c Hfile).
  pose proof (LogReader_init_lines fs logPath c Hfile) as Hinit.
  destruct (search_after Listener (line 2 c)) as [character |] eqn:Hch;
    [ | discriminate ].
  assert (Hcases :
            (exists r, LogReader_init fs logPath = Ok r) \/
            (exists msg, LogReader_init fs logPath
                         = Raise (BadLogException msg)) \/
            (LogReader_init fs logPath = Raise AttributeError /\
             line 5 c = separator /\
             search_after Listener (line 7 c) = None)).
  { rewrite Hinit. destruct (text_eqb (line 5 c) separator) eqn:E.
    - apply text_eqb_eq in E.
      destruct (search_after Listener (line 7 c)).
      + right. left. eexists. reflexivity.
      + right. right. repeat split. exact E.
    - left. eexists. reflexivity. }
  clear Hinit.
  destruct (find_entry character (menuEntries self) 0) as [i |] eqn:Hfind.
  - destruct Hcases as [[r ->] | [[msg ->] | [-> [E5 E7]]]].
    + unfold setitem. apply find_entry_lt in Hfind. rewrite <- Hlen in Hfind.
      apply Nat.ltb_lt in Hfind. rewrite Hfind. discriminate.
    + discriminate.
    + cbn [fst snd]. intros H. injection H as <-. split; [reflexivity |].
      right. split; [reflexivity |]. exists c, character.
      repeat split; assumption.
  - destruct Hcases as [[r ->] | [[msg ->] | [-> [E5 E7]]]].
    + discriminate.
    + discriminate.
    + cbn [fst snd]. intros H. injection H as <-. split; [reflexivity |].
      right. split; [reflexivity |]. exists c, character.
      repeat split; assumption.
Qed.


(** X12: what [addLog] does with a torn collision file: in a
    detector with one reader for each name, [addLog] of a path without
    file raises [FileNotFoundError]; of a file whose text names a
    listener on the third line, has the separator as sixth line and
    names no listener on the eighth, it raises [AttributeError] (the
    [group(0)] of a search that found nothing) instead of refusing the
    file; of a file with any other text it returns normally; and where
    it raises, the detector is unchanged. *)
Theorem addLog_raises_on_torn_collision (self : CharacterDetector)
  (fs : filesystem) (logPath : path) :
  length (logReaders self) = length (menuEntries self) ->
  (fs logPath = None ->
   addLog self fs logPath = (Raise FileNotFoundError, self)) /\
  (forall c, fs logPath = Some c ->
     (torn_collision c ->
      addLog self fs logPath = (Raise AttributeError, self)) /\
     (~ torn_collision c -> fst (addLog self fs logPath) = Ok tt)).
Proof.
  intros Hlen. split.
  - intros Hfile. unfold addLog, open_. rewrite Hfile. reflexivity.
  - intros c Hfile. split.
    + intros [[character Hch] [E5 E7]].
      rewrite (addLog_lines self fs logPath c Hfile), Hch.
      rewrite (LogReader_init_lines fs logPath c Hfile), Hch, E5, E7.
      rewrite text_eqb_refl.
      destruct (find_entry character (menuEntries self) 0); reflexivity.
    + intros Hnot.
      destruct (fst (addLog self fs logPath)) as [[] | e] eqn:E;
        [reflexivity |].
      destruct (addLog_raise_cases self fs logPath e Hlen E)
        as [_ [[_ Hnone] | [_ [c' [character [Hfile' [Hch [E5 E7]]]]]]]].
      * rewrite Hfile in Hnone. discriminate.
      * rewrite Hfile in Hfile'. injection Hfile' as <-.
        exfalso. apply Hnot. split; [exists character; exact Hch |].
        split; assumption.
Qed.

Lemma addLog_raises_on_torn_collision_witness :
  torn_collision Sample.torn /\
  addLog fresh (Sample.one_file Sample.log_txt Sample.torn) Sample.log_txt
  = (Raise AttributeError, fresh) /\
  addLog fresh (fun _ => None) Sample.log_txt
  = (Raise FileNotFoundError, fresh).
Proof.
  assert (Ht : torn_collision Sample.torn).
  { split; [exists (T "Alice"); vm_compute; reflexivity |].
    split; vm_compute; reflexivity. }
  split; [exact Ht |]. split.
  - apply (proj1 (proj2 (addLog_raises_on_torn_collision fresh
                           (Sample.one_file Sample.log_txt Sample.torn)
                           Sample.log_txt eq_refl)
                    Sample.torn eq_refl) Ht).
  - apply (proj1 (addLog_raises_on_torn_collision fresh (fun _ => None)
                    Sample.log_txt eq_refl) eq_refl).
Defined.

(** ** Reading and switching *)

Lemma py_index_in_range len i :
  (0 <= i < Z.of_nat len)%Z -> py_index len i = Ok (Z.to_nat i).
Proof.
  intros H. unfold py_index.
  assert (E : ((0 <=? i) && (i <? Z.of_nat len))%Z = true).
  { apply andb_true_iff. split; [apply Z.leb_le | apply Z.ltb_lt]; lia. }
  rewrite E. reflexivity.
Qed.

Lemma getitem_store {A} (l : list A) j r :
  j < length l -> getitem (store l j r) j = Ok r.
Proof.
  intros H. unfold getitem. rewrite (nth_error_store_same l j r H).
  reflexivity.
Qed.

Lemma LogReader_readLog_caught_up fs r :
  LogReader_readLog fs (catchup fs r) = (Ok zero_totals, catchup fs r).
Proof.
  unfold LogReader_readLog, read.
  rewrite (remaining_after_read fs (log r) : remaining fs (log (catchup fs r))
                                             = []).
  rewrite readLog_empty. f_equal.
  unfold catchup, read, advance. simpl. rewrite Nat.add_0_r. reflexivity.
Qed.

(** X14: a click on a radio button never replays the backlog: in every
    state a detector can be in, after the click on a button of the
    menu the selection is the value of the button, and a [readLog] on
    the same files returns the all-zero tuple and changes nothing. *)
Theorem select_then_readLog_is_zero
  (strptime : text -> string -> option Z) (self : CharacterDetector)
  (fs : filesystem) (label : text) (v : Z) :
  reachable strptime self ->
  In (label, v) (characterMenu self) ->
  fst (select self fs v) = Ok tt /\
  selectedIndex (snd (select self fs v)) = v /\
  readLog (snd (select self fs v)) fs
  = (Ok zero_totals, snd (select self fs v)).
Proof.
  intros Hr Hin.
  destruct (reachable_consistent strptime self Hr) as [H1 [H2 [H3 [H4 H5]]]].
  assert (Hv : (0 <= v < Z.of_nat (length (menuEntries self)))%Z).
  { rewrite Forall_forall in H5. apply (H5 _ Hin). }
  assert (Hj : Z.to_nat v < length (logReaders self)) by lia.
  destruct (nth_error (logReaders self) (Z.to_nat v)) as [r |] eqn:G.
  2:{ apply nth_error_None in G. lia. }
  assert (Es : select self fs v
               = (Ok tt,
                  set_logReaders (set_selectedIndex self v)
                    (store (logReaders self) (Z.to_nat v) (catchup fs r)))).
  { unfold select, catchupLog.
    cbn [logReaders selectedIndex set_selectedIndex].
    rewrite py_index_in_range by (rewrite H2; exact Hv).
    unfold getitem. rewrite G. reflexivity. }
  rewrite Es. cbn [fst snd]. split; [reflexivity |]. split; [reflexivity |].
  unfold readLog.
  cbn [playbackLogReader set_logReaders set_selectedIndex]. rewrite H1.
  unfold readLog_live.
  cbn [menuEntries logReaders selectedIndex set_logReaders
       set_selectedIndex].
  assert (Hpos : (0 <? length (menuEntries self)) = true)
    by (apply Nat.ltb_lt; lia).
  rewrite Hpos, length_store.
  rewrite py_index_in_range by (rewrite H2; exact Hv).
  rewrite (getitem_store _ _ _ Hj), LogReader_readLog_caught_up.
  unfold set_logReaders. cbn [menuEntries logReaders selectedIndex
                              playbackLogReader characterMenu].
  rewrite store_store. reflexivity.
Qed.

Lemma select_then_readLog_is_zero_witness :
  let fs := Sample.one_file Sample.log_txt Sample.session in
  let self := snd (addLog fresh fs Sample.log_txt) in
  let fs' := Sample.one_file Sample.log_txt
               (Sample.session ++ Sample.incoming) in
  In (T "Alice", 0%Z) (characterMenu self) /\
  readLog (snd (select self fs' 0%Z)) fs'
  = (Ok zero_totals, snd (select self fs' 0%Z)).
Proof.
  intros fs self fs'.
  assert (Hin : In (T "Alice", 0%Z) (characterMenu self))
    by (left; reflexivity).
  split; [exact Hin |].
  apply (select_then_readLog_is_zero (fun _ _ => None) self fs'
           (T "Alice") 0%Z); [ | exact Hin ].
  apply reach_addLog. apply (reach_init _ fs None). reflexivity.
Defined.

(** X15: [readLog] serves the selected character alone: in every state
    a detector can be in whose registry is not empty, it returns the
    totals of the text of the selected reader's file after its cursor,
    moves that cursor to the end of the file, and leaves every other
    reader, the names, the menu and the selection unchanged. *)
Theorem readLog_reads_selected_reader
  (strptime : text -> string -> option Z) (self : CharacterDetector)
  (fs : filesystem) :
  reachable strptime self ->
  menuEntries self <> [] ->
  exists r,
    nth_error (logReaders self) (Z.to_nat (selectedIndex self)) = Some r /\
    readLog self fs
    = (BaseLogReader_readLog (remaining fs (log r)),
       set_logReaders self
         (store (logReaders self) (Z.to_nat (selectedIndex self))
            {| log := advance (log r) (remaining fs (log r));
               logLine := logLine r |})) /\
    forall j, j <> Z.to_nat (selectedIndex self) ->
      nth_error (logReaders (snd (readLog self fs))) j
      = nth_error (logReaders self) j.
Proof.
  intros Hr Hne.
  destruct (reachable_consistent strptime self Hr) as [H1 [H2 [H3 [H4 H5]]]].
  assert (Hlen : 0 < length (menuEntries self)).
  { destruct (menuEntries self); [contradiction | simpl; lia]. }
  assert (Hj : Z.to_nat (selectedIndex self) < length (logReaders self))
    by lia.
  destruct (nth_error (logReaders self) (Z.to_nat (selectedIndex self)))
    as [r |] eqn:G.
  2:{ apply nth_error_None in G. lia. }
  exists r. split; [reflexivity |].
  assert (E : readLog self fs
              = (BaseLogReader_readLog (remaining fs (log r)),
                 set_logReaders self
                   (store (logReaders self) (Z.to_nat (selectedIndex self))
                      {| log := advance (log r) (remaining fs (log r));
                         logLine := logLine r |}))).
  { unfold readLog. rewrite H1. unfold readLog_live.
    assert (Hpos : (0 <? length (menuEntries self)) = true)
      by (apply Nat.ltb_lt; exact Hlen).
    rewrite Hpos, py_index_in_range by lia.
    unfold getitem. rewrite G. reflexivity. }
  split; [exact E |].
  intros j Hneq. rewrite E. cbn [snd set_logReaders logReaders].
  apply nth_error_store_other. exact Hneq.
Qed.

Lemma readLog_reads_selected_reader_witness :
  let fs := Sample.one_file Sample.log_txt Sample.session in
  let self := snd (addLog fresh fs Sample.log_txt) in
  let fs' := Sample.one_file Sample.log_txt
               (Sample.session ++ Sample.incoming) in
  menuEntries self <> [] /\
  fst (readLog self fs') = Ok (0, 40, 0, 0, 0, 0, 0, 0)%Z.
Proof.
  intros fs self fs'.
  assert (Hne : menuEntries self <> []) by (vm_compute; discriminate).
  split; [exact Hne |].
  destruct (readLog_reads_selected_reader (fun _ _ => None) self fs')
    as [r [G [E _]]]; [ | exact Hne | ].
  - apply reach_addLog. apply (reach_init _ fs None). reflexivity.
  - rewrite E. cbn [fst]. vm_compute in G. injection G as <-.
    vm_compute. reflexivity.
Defined.

(* ================================================================== *)
(** * Further properties of the playback reader *)

(** What [PlaybackLogReader(logPath)] raises on a file, by its lines. *)
Lemma PlaybackLogReader_init_lines strptime now fs logPath c :
  fs logPath = Some c ->
  PlaybackLogReader_init strptime now fs logPath =
  Raise
    (match search_after Listener (line 2 c) with
     | None => BadLogException "not character log"
     | Some _ =>
         match search_after (T "Session Started: ") (line 3 c) with
         | None => AttributeError
         | Some started =>
             match strptime started "%Y.%m.%d %X"%string with
             | None => ValueError
             | Some _ => AttributeError
             end
         end
     end).
Proof.
  intros Hfile. unfold PlaybackLogReader_init, open_. rewrite Hfile.
  destruct (readline_at fs logPath c Hfile 0 _ (at_line_open logPath c))
    as [f1 [E1 H1]]. rewrite E1.
  destruct (readline_at fs logPath c Hfile 1 _ H1) as [f2 [E2 H2]]. rewrite E2.
  destruct (readline_at fs logPath c Hfile 2 _ H2) as [f3 [E3 H3]]. rewrite E3.
  destruct (search_after Listener (line 2 c)); [ | reflexivity ].
  destruct (readline_at fs logPath c Hfile 3 _ H3) as [f4 [E4 H4]]. rewrite E4.
  destruct (search_after (T "Session Started: ") (line 3 c)) as [started |];
    cbn [group0 bind]; [ | reflexivity ].
  unfold strptime_.
  destruct (strptime started "%Y.%m.%d %X"%string) as [t0 |];
    cbn [bind]; [ | reflexivity ].
  destruct (readline fs f4) as [l5 f5].
  destruct (readline fs f5) as [l6 f6].
  destruct (text_eqb l6 separator).
  - destruct (readline fs f6) as [l7 f7].
    destruct (readline fs f7) as [l8 f8].
    destruct (search_after Listener l8); cbn [group0 bind]; [ | reflexivity ].
    destruct (readline fs f8) as [l9 f9].
    destruct (readline fs f9) as [l10 f10]. cbn [bind].
    destruct (readline fs f10) as [l11 f11]. reflexivity.
  - cbn [bind]. destruct (readline fs f6) as [l7 f7]. reflexivity.
Qed.

(** X16: [playbackLog] returns normally only for a path that is no
    character log: it returns when there is no file at the path or the
    third line of the file names no listener; on every file that names
    a listener it raises ([AttributeError], or [ValueError] when the
    start of the session does not parse); and in every case the names,
    the readers, the selection and the menu are unchanged. *)
Theorem playbackLog_returns_only_without_listener
  (strptime : text -> string -> option Z) (now : Z)
  (self : CharacterDetector) (fs : filesystem) (logPath : path) :
  (fst (playbackLog strptime now self fs logPath) = Ok tt <->
   fs logPath = None \/
   exists c, fs logPath = Some c /\
             search_after Listener (line 2 c) = None) /\
  (forall c character,
      fs logPath = Some c ->
      search_after Listener (line 2 c) = Some character ->
      snd (playbackLog strptime now self fs logPath) = self /\
      (fst (playbackLog strptime now self fs logPath) = Raise AttributeError
       \/ fst (playbackLog strptime now self fs logPath) = Raise ValueError))
  /\
  menuEntries (snd (playbackLog strptime now self fs logPath))
  = menuEntries self /\
  logReaders (snd (playbackLog strptime now self fs logPath))
  = logReaders self /\
  selectedIndex (snd (playbackLog strptime now self fs logPath))
  = selectedIndex self /\
  characterMenu (snd (playbackLog strptime now self fs logPath))
  = characterMenu self.
Proof.
  split; [ | split ].
  - unfold playbackLog. destruct (fs logPath) as [c |] eqn:Hfile.
    + rewrite (PlaybackLogReader_init_lines strptime now fs logPath c Hfile).
      destruct (search_after Listener (line 2 c)) as [ch |] eqn:Hch.
      * split.
        -- destruct (search_after (T "Session Started: ") (line 3 c));
             [ | discriminate ].
           destruct (strptime _ _); discriminate.
        -- intros [H | [c' [H Hn]]]; [discriminate |].
           injection H as <-. rewrite Hch in Hn. discriminate.
      * split; [ | reflexivity ].
        intros _. right. exists c. split; [reflexivity | exact Hch].
    + unfold PlaybackLogReader_init, open_. rewrite Hfile.
      split; [ | reflexivity ]. intros _. left. reflexivity.
  - intros c character Hfile Hch. unfold playbackLog.
    rewrite (PlaybackLogReader_init_lines strptime now fs logPath c Hfile), Hch.
    destruct (search_after (T "Session Started: ") (line 3 c));
      [ | split; [reflexivity | left; reflexivity] ].
    destruct (strptime _ _);
      (split; [reflexivity | (left; reflexivity) || (right; reflexivity)]).
  - unfold playbackLog.
    destruct (playbackLog_on_registry
                (PlaybackLogReader_init strptime now fs logPath) self)
      as [E1 [E2 [E3 E4]]].
    repeat split; assumption.
Qed.

Lemma playbackLog_returns_only_without_listener_witness :
  let fs := Sample.one_file Sample.log_txt Sample.session in
  playbackLog (fun _ _ => Some 0%Z) 0%Z fresh fs Sample.log_txt
  = (Raise AttributeError, fresh).
Proof.
  intros fs.
  destruct (proj1 (proj2 (playbackLog_returns_only_without_listener
                            (fun _ _ => Some 0%Z) 0%Z fresh fs
                            Sample.log_txt))
              Sample.session (T "Alice") eq_refl eq_refl) as [E _].
  vm_compute. reflexivity.
Defined.

(* ================================================================== *)
(** * Properties of the file names *)

Lemma lstrip_app_in chars pre s :
  Forall (fun c => char_in c chars = true) pre ->
  lstrip chars (pre ++ s) = lstrip chars s.
Proof.
  induction 1 as [| c pre Hc _ IH]; simpl; [reflexivity |].
  rewrite Hc. exact IH.
Qed.

Lemma lstrip_keeps chars c s :
  char_in c chars = false -> lstrip chars (c :: s) = c :: s.
Proof. intros H. simpl. rewrite H. reflexivity. Qed.

Lemma rstrip_app_in chars s post :
  Forall (fun c => char_in c chars = true) post ->
  rstrip chars (s ++ post) = rstrip chars s.
Proof.
  intros H. unfold rstrip. rewrite rev_app_distr.
  rewrite lstrip_app_in; [reflexivity |]. apply Forall_rev. exact H.
Qed.

Lemma rstrip_keeps chars s c :
  char_in c chars = false -> rstrip chars (s ++ [c]) = s ++ [c].
Proof.
  intros H. unfold rstrip. rewrite rev_app_distr. simpl rev at 2.
  simpl app. rewrite (lstrip_keeps chars c _ H).
  simpl. rewrite rev_involutive. reflexivity.
Qed.

Lemma lstrip_idempotent chars s :
  lstrip chars (lstrip chars s) = lstrip chars s.
Proof.
  induction s as [| c s IH]; [reflexivity |].
  simpl. destruct (char_in c chars) eqn:E; [exact IH |].
  simpl. rewrite E. reflexivity.
Qed.

Lemma lstrip_snoc chars c s :
  char_in c chars = false ->
  lstrip chars (s ++ [c]) = lstrip chars s ++ [c].
Proof.
  intros H. induction s as [| d s IH]; simpl.
  - rewrite H. reflexivity.
  - destruct (char_in d chars); [exact IH | reflexivity].
Qed.

Lemma rstrip_cons chars c s :
  char_in c chars = false -> rstrip chars (c :: s) = c :: rstrip chars s.
Proof.
  intros H. unfold rstrip. simpl rev at 2.
  rewrite (lstrip_snoc chars c _ H), rev_app_distr. reflexivity.
Qed.

Lemma is_digit_not_in_txt c :
  is_digit c = true -> char_in c (T ".txt") = false.
Proof.
  intros H. unfold char_in. simpl.
  destruct (Ascii.eqb c ".") eqn:E1;
    [apply Ascii.eqb_eq in E1; subst c; discriminate |].
  destruct (Ascii.eqb c "t") eqn:E2;
    [apply Ascii.eqb_eq in E2; subst c; discriminate |].
  destruct (Ascii.eqb c "x") eqn:E3;
    [apply Ascii.eqb_eq in E3; subst c; discriminate |].
  reflexivity.
Qed.

(** X17: [strip(chars)] returns what lies between the outer
    characters of [chars]: for a text [core] whose first and last
    characters are not in [chars], put between two runs of characters
    of [chars], the result is [core]; so a file name that begins and
    ends with a digit, as the names YYYYMMDD_HHMMSS do, comes back
    whole from [filename.strip(".txt")], with or without the
    extension. *)
Theorem strip_returns_the_core :
  (forall chars pre core post,
      Forall (fun c => char_in c chars = true) pre ->
      Forall (fun c => char_in c chars = true) post ->
      core <> [] ->
      char_in (hd nl core) chars = false ->
      char_in (last core nl) chars = false ->
      strip chars (pre ++ core ++ post) = core) /\
  (forall name,
      is_digit (hd nl name) = true ->
      is_digit (last name nl) = true ->
      timeString (name ++ T ".txt") = name /\ timeString name = name).
Proof.
  assert (G : forall chars pre core post,
             Forall (fun c => char_in c chars = true) pre ->
             Forall (fun c => char_in c chars = true) post ->
             core <> [] ->
             char_in (hd nl core) chars = false ->
             char_in (last core nl) chars = false ->
             strip chars (pre ++ core ++ post) = core).
  { intros chars pre core post Hpre Hpost Hne Hhd Hlast.
    unfold strip. rewrite (lstrip_app_in chars pre _ Hpre).
    destruct core as [| c core]; [contradiction |].
    simpl in Hhd. change ((c :: core) ++ post) with (c :: (core ++ post)).
    rewrite (lstrip_keeps chars c _ Hhd).
    change (c :: (core ++ post)) with ((c :: core) ++ post).
    rewrite (rstrip_app_in chars _ post Hpost).
    destruct (@exists_last _ (c :: core) Hne) as [body [d E]].
    rewrite E in Hlast |- *. rewrite last_last in Hlast.
    apply rstrip_keeps. exact Hlast. }
  split; [exact G |].
  intros name Hhd Hlast.
  assert (Hne : name <> []) by (intros ->; discriminate).
  apply is_digit_not_in_txt in Hhd. apply is_digit_not_in_txt in Hlast.
  unfold timeString. split.
  - apply (G (T ".txt") [] name (T ".txt")); try assumption.
    + constructor.
    + repeat constructor.
  - rewrite <- (app_nil_r name) at 1.
    apply (G (T ".txt") [] name []); try assumption; constructor.
Qed.

Lemma strip_returns_the_core_witness :
  timeString (T "20170305_120000.txt") = T "20170305_120000" /\
  timeString (T "text_1.txt") = T "ext_1".
Proof.
  split; [ | vm_compute; reflexivity ].
  apply (proj1 (proj2 strip_returns_the_core (T "20170305_120000")
                  eq_refl eq_refl)).
Defined.

(** X18: [strip(chars)] leaves nothing to strip: its result is empty
    or begins and ends with characters that are not in [chars], and
    stripping it again changes nothing. *)
Theorem strip_is_idempotent (chars s : text) :
  strip chars (strip chars s) = strip chars s /\
  (strip chars s = [] \/
   (char_in (hd nl (strip chars s)) chars = false /\
    char_in (last (strip chars s) nl) chars = false)).
Proof.
  assert (L : forall u, lstrip chars u = [] \/
                        exists c v, lstrip chars u = c :: v /\
                                    char_in c chars = false).
  { induction u as [| c u IH]; [left; reflexivity |].
    simpl. destruct (char_in c chars) eqn:E; [exact IH |].
    right. exists c, u. split; [reflexivity | exact E]. }
  assert (R : forall u, rstrip chars u = [] \/
                        exists v d, rstrip chars u = v ++ [d] /\
                                    char_in d chars = false).
  { intros u. unfold rstrip. destruct (L (rev u)) as [-> | [c [v [-> Hc]]]].
    - left. reflexivity.
    - right. exists (rev v), c. split; [reflexivity | exact Hc]. }
  unfold strip.
  destruct (L s) as [E | [c [v [E Hc]]]]; rewrite E.
  - split; [reflexivity | left; reflexivity].
  - rewrite (rstrip_cons chars c v Hc).
    split.
    + rewrite (lstrip_keeps chars c _ Hc).
      rewrite <- (rstrip_cons chars c v Hc).
      unfold rstrip. rewrite rev_involutive, lstrip_idempotent. reflexivity.
    + right. split; [exact Hc |].
      destruct (R v) as [Ev | [w [d [Ev Hd]]]]; rewrite Ev.
      * exact Hc.
      * change (c :: w ++ [d]) with ((c :: w) ++ [d]).
        rewrite last_last. exact Hd.
Qed.

(* ================================================================== *)
(** * Log rotation and start-up *)

Lemma not_In_find_entry character entries :
  ~ In character entries -> find_entry character entries 0 = None.
Proof.
  intros Hnew.
  destruct (find_entry character entries 0) as [i |] eqn:E; [ | reflexivity ].
  apply find_entry_nth in E. destruct E as [_ E].
  apply nth_error_In in E. contradiction.
Qed.

Lemma header_file_lines character started body :
  no_nl character -> no_nl started ->
  line 2 (log_header character started ++ body)
  = T "  Listener: " ++ character ++ [nl] /\
  line 5 (log_header character started ++ body) = take_line body.
Proof.
  intros Hc Hs.
  pose proof (log_header_lines character started Hc Hs) as Hls. split.
  - unfold log_header.
    rewrite (app_assoc (T "  Listener: ") character [nl]).
    apply (line_unlines _ body 2 _ Hls). reflexivity.
  - unfold log_header. apply (line_after_unlines _ body Hls).
Qed.

Lemma LogReader_init_header fs logPath character started body :
  no_nl character -> no_nl started ->
  take_line body <> separator ->
  fs logPath = Some (log_header character started ++ body) ->
  search_after Listener (line 2 (log_header character started ++ body))
  = Some character /\
  LogReader_init fs logPath =
  Ok {| log := {| name := logPath;
                  pos := length (log_header character started ++ body) |};
        logLine := take_line body |}.
Proof.
  intros Hc Hs Hbody Hfile.
  destruct (header_file_lines character started body Hc Hs) as [L2 L5].
  assert (Hch : search_after Listener
                  (line 2 (log_header character started ++ body))
                = Some character)
    by (rewrite L2; apply (search_after_Listener character Hc)).
  split; [exact Hch |].
  rewrite (LogReader_init_lines fs logPath _ Hfile), Hch, L5.
  apply text_eqb_false in Hbody. rewrite Hbody. reflexivity.
Qed.

(** X19: a new log of a known character takes over: when [addLog] is
    given the first log of [character] and later a second file with
    the header of the same character (neither a collision), the
    registry holds the name once, with the button it got the first
    time, and its reader is the reader of the second file, at the end
    of that file. *)
Theorem new_log_of_a_character_takes_over (self : CharacterDetector)
  (fs fs' : filesystem) (old_path new_path : path)
  (character started started' body body' : text) :
  no_nl character -> no_nl started -> no_nl started' ->
  take_line body <> separator ->
  take_line body' <> separator ->
  fs old_path = Some (log_header character started ++ body) ->
  fs' new_path = Some (log_header character started' ++ body') ->
  ~ In character (menuEntries self) ->
  length (logReaders self) = length (menuEntries self) ->
  addLog (snd (addLog self fs old_path)) fs' new_path =
  (Ok tt,
   {| menuEntries := menuEntries self ++ [character];
      logReaders :=
        logReaders self ++
        [{| log := {| name := new_path;
                      pos := length (log_header character started'
                                     ++ body') |};
            logLine := take_line body' |}];
      selectedIndex := selectedIndex self;
      playbackLogReader := playbackLogReader self;
      characterMenu :=
        characterMenu self ++
        [(character, Z.of_nat (length (menuEntries self)))] |}).
Proof.
  intros Hc Hs Hs' Hbody Hbody' Hfile Hfile' Hnew Hlen.
  destruct (LogReader_init_header fs old_path character started body
              Hc Hs Hbody Hfile) as [Hch Hinit].
  destruct (LogReader_init_header fs' new_path character started' body'
              Hc Hs' Hbody' Hfile') as [Hch' Hinit'].
  pose proof (not_In_find_entry character (menuEntries self) Hnew) as Hfind.
  rewrite (addLog_lines self fs old_path _ Hfile), Hch, Hfind, Hinit.
  cbn [snd].
  rewrite (addLog_lines _ fs' new_path _ Hfile'), Hch'.
  cbn [menuEntries logReaders].
  rewrite (find_entry_app_new _ _ _ Hfind), Hinit'. cbn [Nat.add].
  unfold setitem. rewrite length_app, <- Hlen. cbn [length].
  assert (Hlt : (length (logReaders self)
                 <? length (logReaders self) + 1) = true)
    by (apply Nat.ltb_lt; lia).
  rewrite Hlt, store_app_end. reflexivity.
Qed.

Lemma new_log_of_a_character_takes_over_witness :
  let old_path := "20170305_120000.txt"%string in
  let new_path := "20170306_110000.txt"%string in
  let fs := fun q =>
    if String.eqb q old_path
    then Some (log_header (T "Alice") (T "2017.03.05 12:00:00")
               ++ Sample.hit)
    else if String.eqb q new_path
    then Some (log_header (T "Alice") (T "2017.03.06 11:00:00")
               ++ Sample.incoming)
    else None in
  let self := snd (addLog (snd (addLog fresh fs old_path)) fs new_path) in
  menuEntries self = [T "Alice"] /\
  map (fun r => name (log r)) (logReaders self) = [new_path].
Proof.
  intros old_path new_path fs self.
  pose proof (new_log_of_a_character_takes_over fresh fs fs
                old_path new_path (T "Alice")
                (T "2017.03.05 12:00:00") (T "2017.03.06 11:00:00")
                Sample.hit Sample.incoming) as H.
  unfold self. rewrite H.
  - split; reflexivity.
  - no_nl_text.
  - no_nl_text.
  - no_nl_text.
  - vm_compute. discriminate.
  - vm_compute. discriminate.
  - reflexivity.
  - reflexivity.
  - intros [].
  - reflexivity.
Defined.

(** ** The constructor *)

Lemma addLog_selection self fs logPath :
  selectedIndex (snd (addLog self fs logPath)) = selectedIndex self.
Proof.
  destruct (addLog_effect self fs logPath)
    as [[_ [_ [_ [E _]]]] | [character [r [_ E]]]].
  - exact E.
  - rewrite E. reflexivity.
Qed.

Lemma scan_logs_selection fs files :
  forall self,
    selectedIndex (snd (scan_logs self fs files)) = selectedIndex self.
Proof.
  induction files as [| filename files IH]; intros self; [reflexivity |].
  simpl. pose proof (addLog_selection self fs filename) as E.
  destruct (addLog self fs filename) as [[u | e] self']; simpl in E.
  - rewrite IH. exact E.
  - exact E.
Qed.

Lemma addLog_returns_on_text self fs logPath c :
  consistent self -> fs logPath = Some c -> ~ torn_collision c ->
  exists self', addLog self fs logPath = (Ok tt, self').
Proof.
  intros Hc Hfile Hnot.
  destruct (addLog self fs logPath) as [[[] | e] self'] eqn:E;
    [exists self'; reflexivity |].
  destruct Hc as [_ [Hlen _]].
  destruct (addLog_raise_cases self fs logPath e Hlen)
    as [_ [[_ Hnone] | [_ [c' [character [Hfile' [Hch [E5 E7]]]]]]]].
  - rewrite E. reflexivity.
  - rewrite Hfile in Hnone. discriminate.
  - rewrite Hfile in Hfile'. injection Hfile' as <-.
    exfalso. apply Hnot. split; [exists character; exact Hch |].
    split; assumption.
Qed.

Lemma scan_logs_app fs before rest :
  (forall q, In q before ->
             exists c, fs q = Some c /\ ~ torn_collision c) ->
  forall self, consistent self ->
    consistent (snd (scan_logs self fs before)) /\
    scan_logs self fs (before ++ rest)
    = scan_logs (snd (scan_logs self fs before)) fs rest.
Proof.
  induction before as [| filename before IH]; intros Hgood self Hc.
  - split; [exact Hc | reflexivity].
  - destruct (Hgood filename (or_introl eq_refl)) as [c [Hfile Hnot]].
    destruct (addLog_returns_on_text self fs filename c Hc Hfile Hnot)
      as [self' E].
    pose proof (addLog_consistent self fs filename Hc) as Hc'.
    rewrite E in Hc'. simpl in Hc'.
    simpl. rewrite E.
    apply IH; [ | exact Hc' ].
    intros q Hq. apply Hgood. right. exact Hq.
Qed.

(** X20: what one file does to the constructor of the detector: after
    files whose texts are no torn collisions, a listed file that has
    vanished only ends the scan and the detector is built with the
    characters found so far, while a listed file that is a torn
    collision (a listener on the third line, the separator as sixth
    line, no listener on the eighth) makes the constructor raise
    [AttributeError]: no detector is built; and a detector that is
    built has the selection at 0, no playback reader and one reader
    for each name. *)
Theorem CharacterDetector_init_stops_at_torn_file (fs : filesystem)
  (before after : list path) (logPath : path) :
  (forall q, In q before ->
             exists c, fs q = Some c /\ ~ torn_collision c) ->
  (fs logPath = None ->
   CharacterDetector_init fs (Some (before ++ logPath :: after))
   = Ok (snd (scan_logs fresh fs before))) /\
  (forall c, fs logPath = Some c -> torn_collision c ->
     CharacterDetector_init fs (Some (before ++ logPath :: after))
     = Raise AttributeError) /\
  (forall files self,
      CharacterDetector_init fs files = Ok self ->
      selectedIndex self = 0%Z /\
      playbackLogReader self = None /\
      length (logReaders self) = length (menuEntries self)).
Proof.
  intros Hgood.
  destruct (scan_logs_app fs before (logPath :: after) Hgood fresh
              consistent_fresh) as [Hc Happ].
  split; [ | split ].
  - intros Hfile. unfold CharacterDetector_init. rewrite Happ.
    simpl. unfold addLog at 1, open_. rewrite Hfile. reflexivity.
  - intros c Hfile [[character Hch] [E5 E7]].
    unfold CharacterDetector_init. rewrite Happ. simpl.
    rewrite (addLog_lines _ fs logPath c Hfile), Hch.
    rewrite (LogReader_init_lines fs logPath c Hfile), Hch, E5, E7.
    rewrite text_eqb_refl.
    destruct (find_entry character _ 0); reflexivity.
  - intros files self E.
    destruct (CharacterDetector_init_consistent fs files self E)
      as [H1 [H2 _]].
    split; [ | split; assumption ].
    unfold CharacterDetector_init in E. destruct files as [listed |].
    + pose proof (scan_logs_selection fs listed fresh) as Hs.
      destruct (scan_logs fresh fs listed) as [[u | e] self'].
      * injection E as <-. reflexivity.
      * destruct e; try discriminate. injection E as <-. exact Hs.
    + injection E as <-. reflexivity.
Qed.

Lemma CharacterDetector_init_stops_at_torn_file_witness :
  CharacterDetector_init (Sample.one_file Sample.log_txt Sample.torn)
    (Some [Sample.log_txt])
  = Raise AttributeError /\
  CharacterDetector_init (fun _ => None) (Some [Sample.log_txt]) = Ok fresh.
Proof.
  assert (Hgood : forall fs q, In q (@nil path) ->
                    exists c, fs q = Some c /\ ~ torn_collision c)
    by (intros fs q []).
  assert (Ht : torn_collision Sample.torn).
  { split; [exists (T "Alice"); vm_compute; reflexivity |].
    split; vm_compute; reflexivity. }
  split.
  - apply (proj1 (proj2 (CharacterDetector_init_stops_at_torn_file
                           (Sample.one_file Sample.log_txt Sample.torn)
                           [] [] Sample.log_txt (Hgood _)))
             Sample.torn eq_refl Ht).
  - apply (proj1 (CharacterDetector_init_stops_at_torn_file
                    (fun _ => None) [] [] Sample.log_txt (Hgood _))).
    reflexivity.
Defined.
